(** * The idb-next write path of PouchDB: bulkDocs and getAttachment

    A shallow embedding of [src/adapters/idb-next/bulkDocs.js] and
    [src/adapters/idb-next/getAttachment.js].

    - JavaScript objects used as dictionaries ([revs], [oldDocs],
      [attachments], [_attachments]) are finite maps with string keys.
    - The bodies of revisions are JavaScript objects that the code shares
      between [doc.data] and [doc.revs[rev].data] and mutates in place;
      they live in an explicit heap and documents hold locations.
    - Functions imported from [../../deps/] (the parser, the tree merge,
      the winning revision, base64 and digest primitives) are not part of
      these two files; they are the fields of the class [Deps].
    - An uncaught JavaScript exception (a [TypeError] on a property read of
      [undefined]) is the result [None] of the function that raises it.
    - The dictionaries are plain objects, so a name of a member of
      [Object.prototype] ([inherited]) is [in] every one of them and reads
      as the inherited member where the object has no property of its own
      under it.  The two places where the name comes from the caller, the
      document id in [processDocs] and the attachment name in
      [getAttachment], are modelled so.  Revision ids have the form
      ["<n>-<id>"] and name no such member; the store holds no record
      under ["__proto__"] (no call of this module writes one) and no
      document has an attachment of that name.
    - [api.metaData.seq] is an integer; the precision of JavaScript numbers
      beyond 2^53 is not modelled. *)

From stdpp Require Import gmap strings list fin_maps pretty.
From Stdlib Require Import ZArith.

Set Warnings "-register-all".
Local Open Scope Z_scope.

(** ** JavaScript values used as flags *)

Inductive jsval :=
| JUndefined
| JBool (b : bool)
| JNum (n : Z).

(** The truth value JavaScript gives to a flag in a condition. *)
Definition truthy (v : jsval) : bool :=
  match v with
  | JUndefined => false
  | JBool b => b
  | JNum n => negb (n =? 0)
  end.

(** ** Errors ([../../deps/errors]) *)

(** The three templates the module imports, and the ones a parser raises
    (identified by their name). *)
Inductive ErrorTemplate :=
| REV_CONFLICT
| MISSING_DOC
| BAD_ARG
| PARSER_ERROR (name : string).

(** [createError(template, reason)]: every such object has a truthy
    [error] property, which is what the module tests. *)
Record PouchError := createError {
  err_template : ErrorTemplate;
  err_reason : option string
}.

(** ** Revision trees *)

Record NodeOpts := {
  status : string;
  opts_deleted : jsval
}.

(** A node is the array [[id, opts, children]]. *)
Inductive Node :=
| mkNode (nid : string) (nopts : NodeOpts) (children : list Node).

Definition node_opts (n : Node) : NodeOpts :=
  match n with mkNode _ o _ => o end.

(** An element of [rev_tree] is [{pos, ids}]. *)
Record Root := {
  pos : Z;
  ids : Node
}.

Abbreviation Tree := (list Root).

(** The value of [merge(tree, path, depth)]. *)
Record MergeResult := {
  merged_tree : Tree;
  merged_stemmedRevs : list string;
  merged_conflicts : string
}.

(** ** Attachments and bodies *)

(** What [binStringToBlobOrBuffer] builds. *)
Record Blob := {
  blob_content : string;
  blob_type : option string
}.

Inductive AttData :=
| DataString (s : string)
| DataBlob (b : Blob).

Record Attachment := {
  att_stub : bool;
  att_content_type : option string;
  att_data : option AttData;
  att_length : option Z;
  att_digest : option string
}.

(** A document body, which is also the shape of a raw input document:
    [_id], [_rev], [_attachments] and the remaining fields. *)
Record Body := {
  b_id : option string;
  b_rev : option string;
  b_attachments : option (gmap string Attachment);
  b_fields : list (string * string)
}.

(** Bodies are heap objects; a location is an index in the heap. *)
Abbreviation loc := nat.
Abbreviation Heap := (list Body).

Definition alloc (h : Heap) (b : Body) : loc * Heap :=
  (length h, (h ++ [b])%list).

(** ** Documents *)

(** An entry of [revs]: [{data, deleted}]. *)
Record RevEntry := {
  e_data : loc;
  e_deleted : jsval
}.

(** The document format of the adapter.  [convertDocFormat] fills in
    [id], [rev], [rev_tree] and [revs]; the other properties are absent
    until [update] or [write] assigns them. *)
Record Doc := {
  doc_id : string;
  doc_rev : string;
  doc_rev_tree : Tree;
  doc_revs : gmap string RevEntry;
  doc_data : option loc;
  doc_deleted : jsval;
  doc_seq : option Z;
  doc_stemmedRevs : option (list string);
  doc_attachments : option (gmap string Attachment)
}.

(** The value of [parseDoc]: [{metadata, data}].  The entries of
    [metadata.revs], when the parser supplies them, carry their bodies. *)
Record Metadata := {
  m_id : string;
  m_rev : string;
  m_rev_tree : Tree;
  m_revs : option (list (string * (Body * jsval)));
  m_deleted : jsval
}.

Record ParseResult := {
  metadata : Metadata;
  data : Body
}.

(** The value of [parseBase64]: the decoded binary string, or the object
    [{error: createError(BAD_ARG, ...)}]. *)
Inductive Base64Result :=
| Decoded (s : string)
| DecodeError (e : PouchError).

(** ** The collaborators under [../../deps/] *)

Class Deps := {
  (** [parseDoc(doc, newEdits)]; [inl] is an error object, returned or
      thrown (the parser builds its errors with [createError], so both
      have a truthy [error]). *)
  parseDoc : Body -> bool -> PouchError + ParseResult;
  merge : Tree -> Root -> Z -> MergeResult;
  (** [calculateWinningRev(doc)] selects among the leaves of
      [doc.rev_tree] and reads nothing else of the document. *)
  calculateWinningRev : Tree -> string;
  (** [atob(data)]; [None] when it throws. *)
  atob : string -> option string;
  (** The digest the promise of [md5] resolves to. *)
  md5 : Base64Result -> string;
  binStringToBlobOrBuffer : Base64Result -> option string -> Blob
}.

(** The options of a call and the metadata of the database. *)
Record Opts := {
  new_edits : bool;
  (** whether the key [was_delete] is present *)
  was_delete : bool
}.

Record MetaData := {
  md_name : string;
  md_seq : Z;
  md_revsLimit : option Z
}.

(** [results] is a JavaScript array filled by index: a slot that was never
    assigned is a hole, and assigning past the end extends the array. *)
Inductive Result :=
| ROk (id rev : string)
| RError (e : PouchError).

Definition js_assign {A} (l : list (option A)) (i : nat) (x : A)
  : list (option A) :=
  if decide (i < length l)%nat then <[i := Some x]> l
  else (l ++ replicate (i - length l) None ++ [Some x])%list.

(** The names every plain object inherits from [Object.prototype]: for
    these, [name in object] holds and [object[name]] is the inherited
    member (a function, or the prototype itself for ["__proto__"])
    whenever the object has no property of its own under the name. *)
Definition inherited (name : string) : bool :=
  bool_decide
    (name ∈ ["constructor"; "toString"; "toLocaleString"; "valueOf";
             "hasOwnProperty"; "isPrototypeOf"; "propertyIsEnumerable";
             "__proto__"; "__defineGetter__"; "__defineSetter__";
             "__lookupGetter__"; "__lookupSetter__"]).

(** ** Assignments to the properties of a document *)

Definition set_merged (doc : Doc) (m : MergeResult) : Doc :=
  {| doc_id := doc_id doc; doc_rev := doc_rev doc;
     doc_rev_tree := merged_tree m; doc_revs := doc_revs doc;
     doc_data := doc_data doc; doc_deleted := doc_deleted doc;
     doc_seq := doc_seq doc;
     doc_stemmedRevs := Some (merged_stemmedRevs m);
     doc_attachments := doc_attachments doc |}.

Definition set_revs (doc : Doc) (revs : gmap string RevEntry) : Doc :=
  {| doc_id := doc_id doc; doc_rev := doc_rev doc;
     doc_rev_tree := doc_rev_tree doc; doc_revs := revs;
     doc_data := doc_data doc; doc_deleted := doc_deleted doc;
     doc_seq := doc_seq doc; doc_stemmedRevs := doc_stemmedRevs doc;
     doc_attachments := doc_attachments doc |}.

Definition set_b_attachments (b : Body) (a : gmap string Attachment) : Body :=
  {| b_id := b_id b; b_rev := b_rev b; b_attachments := Some a;
     b_fields := b_fields b |}.

(** [tmp._rev = rev; tmp._id = id] *)
Definition set_b_rev_id (b : Body) (rev id : string) : Body :=
  {| b_id := Some id; b_rev := Some rev; b_attachments := b_attachments b;
     b_fields := b_fields b |}.

(** What [update] hands back: [false], an error, or the document. *)
Inductive Updated :=
| Skipped
| Rejected (e : PouchError)
| Accepted (d : Doc).

(** [update] also leaves its mark on the objects it was given: [u_doc] is
    the caller's document object after the call, [u_oldDoc] the prior
    record, whose [revs] object the function writes into. *)
Record UpdateOutcome := {
  u_heap : Heap;
  u_doc : Doc;
  u_oldDoc : Doc;
  u_result : Updated
}.

(** The state the transaction works on: the heap of bodies, the prior
    records read from the store, [api.metaData.seq], the [results] array
    and the records handed to [put], each with the index of its input and
    the heap at that moment (the store keeps a structured clone). *)
Record State := {
  st_heap : Heap;
  st_oldDocs : gmap string Doc;
  st_seq : Z;
  st_results : list (option Result);
  st_puts : list (nat * Doc * Heap)
}.

Section BulkDocs.
Context `{Deps}.
Variable opts : Opts.
(** [api.metaData.revsLimit || 1000], fixed when the call starts. *)
Variable revsLimit : Z.

Definition rootIsMissing (doc : Doc) : option bool :=
  match doc_rev_tree doc with
  | [] => None
  | r :: _ => Some (String.eqb (status (node_opts (ids r))) "missing")
  end.

Definition parseBase64 (data : string) : Base64Result :=
  match atob data with
  | Some bin => Decoded bin
  | None =>
      DecodeError
        (createError BAD_ARG (Some "Attachment is not a valid base64 string"))
  end.

(** The entries of [doc.metadata.revs || {}], their bodies placed in the
    heap. *)
Fixpoint alloc_revs (h : Heap) (l : list (string * (Body * jsval)))
  : gmap string RevEntry * Heap :=
  match l with
  | [] => (∅, h)
  | (r, (b, d)) :: l' =>
      let '(m, h1) := alloc_revs h l' in
      let '(p, h2) := alloc h1 b in
      (<[r := {| e_data := p; e_deleted := d |}]> m, h2)
  end.

Definition convertDocFormat (h : Heap) (doc : ParseResult) : Doc * Heap :=
  let '(revs, h1) := alloc_revs h (default [] (m_revs (metadata doc))) in
  let '(p, h2) := alloc h1 (data doc) in
  let rev := m_rev (metadata doc) in
  ({| doc_id := m_id (metadata doc);
      doc_rev := rev;
      doc_rev_tree := m_rev_tree (metadata doc);
      doc_revs :=
        <[rev := {| e_data := p; e_deleted := m_deleted (metadata doc) |}]>
          revs;
      doc_data := None; doc_deleted := JUndefined; doc_seq := None;
      doc_stemmedRevs := None; doc_attachments := None |}, h2).

(** [/^1-/.test(doc.rev)] *)
Definition isRoot (rev : string) : bool := String.prefix "1-" rev.

Definition inConflict (oldDoc doc : Doc) (merged : MergeResult) : bool :=
  new_edits opts &&
  ((truthy (doc_deleted oldDoc) && truthy (doc_deleted doc)) ||
   (negb (truthy (doc_deleted oldDoc)) &&
    negb (String.eqb (merged_conflicts merged) "new_leaf")) ||
   (truthy (doc_deleted oldDoc) && negb (truthy (doc_deleted doc)) &&
    String.eqb (merged_conflicts merged) "new_branch")).

(** The block that re-attaches a first write after a deletion.  It
    rebinds the local name [doc] only: the caller's object keeps its
    properties, its body gets [_rev] and [_id]. *)
Definition reattach (h : Heap) (doc oldDoc : Doc) : option (Doc * Heap) :=
  e ← doc_revs doc !! doc_rev doc;
  tmp ← h !! e_data e;
  let tmp' := set_b_rev_id tmp (doc_rev oldDoc) (doc_id oldDoc) in
  match parseDoc tmp' (new_edits opts) with
  | inl _ => None
  | inr r => Some (convertDocFormat (<[e_data e := tmp']> h) r)
  end.

(** [oldDoc.deleted && !doc.deleted && opts.new_edits && isRoot] *)
Definition reattaches (doc oldDoc : Doc) : bool :=
  truthy (doc_deleted oldDoc) && negb (truthy (doc_deleted doc)) &&
  new_edits opts && isRoot (doc_rev doc).

(** [merge] is given [doc.rev_tree[0]]; for an empty [rev_tree] that is
    [undefined], on which the merge throws. *)
Definition update (h : Heap) (doc oldDoc : Doc) : option UpdateOutcome :=
  if decide (is_Some (doc_revs oldDoc !! doc_rev doc)) then
    Some {| u_heap := h; u_doc := doc; u_oldDoc := oldDoc;
            u_result := Skipped |}
  else
    let reattached := reattaches doc oldDoc in
    r ← (if reattached then reattach h doc oldDoc else Some (doc, h));
    let '(doc1, h1) := r in
    path ← head (doc_rev_tree doc1);
    let merged := merge (doc_rev_tree oldDoc) path revsLimit in
    let doc2 := set_merged doc1 merged in
    (* revs[doc.rev] = doc.revs[doc.rev]; convertDocFormat always
       installs that entry *)
    let revs :=
      match doc_revs doc2 !! doc_rev doc2 with
      | Some e => <[doc_rev doc2 := e]> (doc_revs oldDoc)
      | None => doc_revs oldDoc
      end in
    let doc3 := set_revs doc2 revs in
    Some {| u_heap := h1;
            u_doc := if reattached then doc else doc3;
            u_oldDoc := set_revs oldDoc revs;
            u_result :=
              if inConflict oldDoc doc3 merged
              then Rejected (createError REV_CONFLICT None)
              else Accepted doc3 |}.

(** [{stub: true, digest: attachment.digest}] *)
Definition stub_of (a : Attachment) : Attachment :=
  {| att_stub := true; att_content_type := None; att_data := None;
     att_length := None; att_digest := att_digest a |}.

(** [doc.stemmedRevs.forEach(function(rev) { delete doc.revs[rev]; })] *)
Definition drop_stemmed (revs : gmap string RevEntry)
    (stemmed : option (list string)) : gmap string RevEntry :=
  match stemmed with
  | Some l => foldl (fun m rev => delete rev m) revs l
  | None => revs
  end.

(** [write] up to the call of [put]: the heap, the counter and the
    record as they are when [put] clones the record.  [doc.data] is the
    location held by [doc.revs[winningRev]]; the loop over
    [doc.data._attachments] rewrites the body at that location. *)
Definition write (h : Heap) (seq : Z) (doc : Doc)
  : option (Heap * Z * Doc) :=
  let winningRev := calculateWinningRev (doc_rev_tree doc) in
  e ← doc_revs doc !! winningRev;
  let seq' := seq + 1 in
  let revs := drop_stemmed (doc_revs doc) (doc_stemmedRevs doc) in
  let attachments := default ∅ (doc_attachments doc) in
  body ← h !! e_data e;
  let '(attachments', h') :=
    match b_attachments body with
    | Some atts =>
        (atts ∪ attachments,
         <[e_data e := set_b_attachments body (stub_of <$> atts)]> h)
    | None => (attachments, h)
    end in
  Some (h', seq',
        {| doc_id := doc_id doc;
           doc_rev := winningRev;
           doc_rev_tree := doc_rev_tree doc;
           doc_revs := revs;
           doc_data := Some (e_data e);
           doc_deleted := JNum (if truthy (e_deleted e) then 1 else 0);
           doc_seq := Some seq';
           doc_stemmedRevs := None;
           doc_attachments := Some attachments' |}).

(** The first part of the body of the [forEach] in [processDocs]: which
    of the three branches runs, and what it leaves in the heap, in the
    caller's [doc], in [oldDocs] and in [newDoc].  When [oldDocs] has no
    record under [doc.id] but the id is an inherited name, [doc.id in
    oldDocs] holds all the same: the update branch runs on the inherited
    member, which has no [revs], and [doc.rev in oldDoc.revs] throws. *)
Definition resolve (st : State) (doc : Doc)
  : option (Heap * Doc * gmap string Doc * Updated) :=
  match st_oldDocs st !! doc_id doc with
  | None =>
      if inherited (doc_id doc) then None
      else if was_delete opts then
        Some (st_heap st, doc, st_oldDocs st,
              Rejected (createError MISSING_DOC (Some "deleted")))
      else
        path ← head (doc_rev_tree doc);
        let merged := merge [] path revsLimit in
        let doc' := set_merged doc merged in
        Some (st_heap st, doc', st_oldDocs st, Accepted doc')
  | Some oldDoc =>
      u ← update (st_heap st) doc oldDoc;
      Some (u_heap u, u_doc u,
            <[doc_id doc := u_oldDoc u]> (st_oldDocs st), u_result u)
  end.

(** [oldDocs] after [oldDocs[newDoc.id] = newDoc] and [write].  The
    written document and the prior record found under [doc.id], if any,
    share one [revs] object since [update], so the entries [write] deletes
    are gone from both. *)
Definition written (doc d' : Doc) (oldDocs : gmap string Doc)
  : gmap string Doc :=
  <[doc_id d' := d']>
    (alter (fun oldDoc => set_revs oldDoc (doc_revs d')) (doc_id doc) oldDocs).

(** One iteration of the [forEach] in [processDocs], for [docs[i]]. *)
Definition processDoc (st : State) (i : nat) (doc : Doc) : option State :=
  r ← resolve st doc;
  let '(h, doc', oldDocs, newDoc) := r in
  match newDoc with
  | Skipped => Some st
  | _ =>
      missing ← (if new_edits opts then rootIsMissing doc' else Some false);
      let newDoc' : Updated :=
        if missing : bool then Rejected (createError REV_CONFLICT None)
        else newDoc in
      match newDoc' with
      | Skipped => Some st
      | Rejected e =>
          Some {| st_heap := h; st_oldDocs := oldDocs;
                  st_seq := st_seq st;
                  st_results := js_assign (st_results st) i (RError e);
                  st_puts := st_puts st |}
      | Accepted d =>
          match write h (st_seq st) d with
          | None => None
          | Some (h', seq', d') =>
              Some {| st_heap := h';
                      st_oldDocs := written doc d' oldDocs;
                      st_seq := seq';
                      st_results :=
                        js_assign (st_results st) i
                          (ROk (doc_id d') (doc_rev d'));
                      st_puts := (st_puts st ++ [(i, d', h')])%list |}
          end
      end
  end.

(** [docs.forEach(function(doc, i) {...})] from index [i] on.  An
    exception leaves the loop: the later documents are not visited, and
    what the earlier iterations assigned and handed to [put] stays. *)
Fixpoint processDocs (i : nat) (docs : list Doc) (st : State) : State :=
  match docs with
  | [] => st
  | doc :: rest =>
      match processDoc st i doc with
      | Some st' => processDocs (S i) rest st'
      | None => st
      end
  end.

(** [oldDocs] as [fetchExistingDocs] resolves it. *)
Definition fetchExistingDocs (store : gmap string Doc) (docs : list Doc)
  : gmap string Doc :=
  foldl (fun oldDocs doc =>
           match store !! doc_id doc with
           | Some r => <[doc_id r := r]> oldDocs
           | None => oldDocs
           end) ∅ docs.

(** [None] is the [undefined] the function falls through to when the
    attachment is no stub and its [data] no string. *)
Definition preProcessAttachment (a : Attachment) : option Attachment :=
  if att_stub a then Some a
  else
    match att_data a with
    | Some (DataString s) =>
        let asBinary := parseBase64 s in
        Some {| att_stub := att_stub a;
                att_content_type := att_content_type a;
                att_data :=
                  Some (DataBlob
                          (binStringToBlobOrBuffer asBinary
                             (att_content_type a)));
                att_length :=
                  match asBinary with
                  | Decoded bin => Some (Z.of_nat (String.length bin))
                  | DecodeError _ => None
                  end;
                att_digest := Some ("md5-" +:+ md5 asBinary) |}
    | _ => None
    end.

(** The promise [preProcessAttachments] builds for one document; [None]
    when it is rejected ([attachment.name] read on [undefined]). *)
Definition preProcessDoc (h : Heap) (doc : Doc) : option Heap :=
  e ← doc_revs doc !! doc_rev doc;
  body ← h !! e_data e;
  match b_attachments body with
  | None => Some h
  | Some atts =>
      if decide (map_Forall (fun _ a => is_Some (preProcessAttachment a))
                   atts)
      then Some (<[e_data e :=
                     set_b_attachments body
                       (omap preProcessAttachment atts)]> h)
      else None
  end.

Fixpoint preProcessAttachments (h : Heap) (docs : list Doc) : option Heap :=
  match docs with
  | [] => Some h
  | doc :: rest => h' ← preProcessDoc h doc; preProcessAttachments h' rest
  end.

(** The loop over [req.docs]: the first error ends the call.  (The
    object [newDoc] the loop builds at lines 262-272 is never used.) *)
Fixpoint parse_loop (h : Heap) (raws : list Body)
  : PouchError + (list Doc * Heap) :=
  match raws with
  | [] => inr ([], h)
  | raw :: rest =>
      match parseDoc raw (new_edits opts) with
      | inl err => inl err
      | inr result =>
          let '(doc, h1) := convertDocFormat h result in
          match parse_loop h1 rest with
          | inl err => inl err
          | inr (docs, h2) => inr (doc :: docs, h2)
          end
      end
  end.

End BulkDocs.

(** ** The exported function of bulkDocs.js *)

(** What a call does to its surroundings, in order: the transaction it
    opens, the requests it places on it, the notification and the call of
    [callback]. *)
Inductive Event :=
| EvTransaction
| EvGet (id : string)
| EvPut (i : nat) (doc : Doc)
| EvNotify (name : string)
| EvCallback (err : option PouchError)
    (results : option (list (option Result))).

Record Run := {
  run_events : list Event;
  (** the state when the transaction completes; [None] when the call
      returned from the parse loop *)
  run_final : option State
}.

Section Exported.
Context `{Deps}.

(** [api.metaData.revsLimit || 1000] *)
Definition revsLimit_of (api : MetaData) : Z :=
  match md_revsLimit api with
  | Some n => if n =? 0 then 1000 else n
  | None => 1000
  end.

(** The whole call, for a store whose records have their bodies in
    [h0].  The backend is taken to serve every request and to complete
    the transaction once the requests placed on it are served; aborts
    and timeouts are not modelled.  When the promise chain is rejected,
    or never resolved (no document to fetch), [processDocs] does not
    run. *)
Definition bulkDocs (store : gmap string Doc) (h0 : Heap) (api : MetaData)
    (opts : Opts) (req : list Body) : Run :=
  let revsLimit := revsLimit_of api in
  match parse_loop opts h0 req with
  | inl err =>
      {| run_events := [EvTransaction; EvCallback (Some err) None];
         run_final := None |}
  | inr (docs, h1) =>
      let st0 := {| st_heap := h1; st_oldDocs := ∅; st_seq := md_seq api;
                    st_results := []; st_puts := [] |} in
      let '(gets, st) :=
        match preProcessAttachments h1 docs, docs with
        | Some h2, _ :: _ =>
            (EvGet <$> (doc_id <$> docs),
             processDocs opts revsLimit 0 docs
               {| st_heap := h2;
                  st_oldDocs := fetchExistingDocs store docs;
                  st_seq := md_seq api;
                  st_results := []; st_puts := [] |})
        | _, _ => ([], st0)
        end in
      {| run_events :=
           (EvTransaction :: gets ++
            ((fun p => EvPut p.1.1 p.1.2) <$> st_puts st) ++
            [EvNotify (md_name api);
             EvCallback None (Some (st_results st))])%list;
         run_final := Some st |}
  end.

(** The store and the heap a later call starts from: every record handed
    to [put] is kept under its [id]. *)
Definition committed (store : gmap string Doc) (h0 : Heap) (r : Run)
  : gmap string Doc * Heap :=
  match run_final r with
  | Some st =>
      (foldl (fun s p => <[doc_id p.1.2 := p.1.2]> s) store (st_puts st),
       st_heap st)
  | None => (store, h0)
  end.

(** The results array the caller receives, if it receives one. *)
Definition delivered (r : Run) : option (list (option Result)) :=
  st_results <$> run_final r.

End Exported.

(** ** getAttachment.js *)

(** The arguments [cb] is called with. *)
Record Callback := {
  cb_err : option PouchError;
  cb_data : option AttData
}.

(** The [onsuccess] handler of the read; [None] when it throws.  Where
    the document has no attachment of its own under [attachId] but the
    name is inherited, [doc.attachments[attachId]] is the inherited
    member, whose [data] is [undefined]. *)
Definition getAttachment (store : gmap string Doc) (docId attachId : string)
  : option Callback :=
  doc ← store !! docId;
  attachments ← doc_attachments doc;
  match attachments !! attachId with
  | Some attachment =>
      Some {| cb_err := None; cb_data := att_data attachment |}
  | None =>
      if inherited attachId then Some {| cb_err := None; cb_data := None |}
      else None
  end.

(** ** Vocabulary of the statements *)

(** The state after an iteration that puts an error in slot [i]. *)
Definition rejected (st : State) (h : Heap) (oldDocs : gmap string Doc)
    (i : nat) (e : PouchError) : State :=
  {| st_heap := h; st_oldDocs := oldDocs; st_seq := st_seq st;
     st_results := js_assign (st_results st) i (RError e);
     st_puts := st_puts st |}.

(** The state [processDocs] starts from. *)
Definition state_at (h : Heap) (oldDocs : gmap string Doc) (seq : Z) : State :=
  {| st_heap := h; st_oldDocs := oldDocs; st_seq := seq; st_results := [];
     st_puts := [] |}.

(** The only errors [processDocs] writes into [results]. *)
Definition policy_slot (slot : option Result) : Prop :=
  match slot with
  | Some (RError e) =>
      e = createError MISSING_DOC (Some "deleted") ∨
      e = createError REV_CONFLICT None
  | _ => True
  end.

(** The value of slot [i] of [results]: [None] for a hole or an index past
    the end. *)
Definition slot (results : list (option Result)) (i : nat) : option Result :=
  default None (results !! i).

(** [puts] are the records written from a state whose counter is [s] by
    iterations of index [i] and more: each took the next value of the
    counter, in the order of their indices. *)
Inductive numbered : nat → Z → list (nat * Doc * Heap) → Prop :=
| numbered_nil i s : numbered i s []
| numbered_cons i s j d h rest :
    (i ≤ j)%nat →
    doc_seq d = Some (s + 1) →
    numbered (S j) (s + 1) rest →
    numbered i s ((j, d, h) :: rest).

(** The document carries a result of [merge]: its tree and its
    [stemmedRevs] are those the merge returned. *)
Definition carries_merge `{Deps} (revsLimit : Z) (d : Doc) : Prop :=
  ∃ tree path,
    doc_rev_tree d = merged_tree (merge tree path revsLimit) ∧
    doc_stemmedRevs d =
      Some (merged_stemmedRevs (merge tree path revsLimit)).

(** The record and heap handed to [put] are what [write] made of a
    document that carries a result of [merge]. *)
Definition written_by_write `{Deps} (revsLimit : Z) (p : nat * Doc * Heap)
  : Prop :=
  ∃ h seq seq' d,
    carries_merge revsLimit d ∧ write h seq d = Some (p.2, seq', p.1.2).

(** ** Revisions named in a tree *)

(** The revision id of the node [i] of generation [p]: ["<p>-<i>"]. *)
Definition rev_string (p : Z) (i : string) : string :=
  pretty p +:+ "-" +:+ i.

(** Every node below (and including) a node of generation [g], under its
    revision id. *)
Fixpoint node_revs (g : Z) (n : Node) : list (string * NodeOpts) :=
  match n with
  | mkNode i o cs =>
      (rev_string g i, o) ::
      (fix go (cs : list Node) : list (string * NodeOpts) :=
         match cs with
         | [] => []
         | c :: cs' => (node_revs (g + 1) c ++ go cs')%list
         end) cs
  end.

Definition tree_revs (t : Tree) : list (string * NodeOpts) :=
  flat_map (fun r => node_revs (pos r) (ids r)) t.

(** The tree has a node for [rev] whose status is ['missing']. *)
Definition marked_missing (rev : string) (t : Tree) : bool :=
  existsb (fun p => String.eqb p.1 rev && String.eqb (status p.2) "missing")
    (tree_revs t).

(** Modelled from the spec: the stemming half of [merge]
    ([../../deps/merge/index], not among these files).  Section 4.1:
    "removed node ids are returned in stemmedRevs; pruned ancestor nodes
    keep a missing status marker rather than being deleted outright, so
    shape is preserved".  A result of [merge] has the property when every
    revision it reports as stemmed is still a node of the tree it
    returns, with status ['missing']. *)
Definition stem_keeps_missing (m : MergeResult) : bool :=
  forallb (fun rev => marked_missing rev (merged_tree m))
    (merged_stemmedRevs m).

(** ** Vocabulary of the further properties *)

(** The store keeps each record under its [id] (the key path of the
    document store). *)
Definition keyed_by_id (store : gmap string Doc) : Prop :=
  map_Forall (fun k d => doc_id d = k) store.

(** The location of [doc.revs[doc.rev].data], and the body there. *)
Definition entry_loc (doc : Doc) : option loc :=
  e_data <$> doc_revs doc !! doc_rev doc.

Definition doc_body (h : Heap) (doc : Doc) : option Body :=
  doc_revs doc !! doc_rev doc ≫= fun e => h !! e_data e.

(** The documents hold their own revision at locations that increase
    along the list, from [n] on: no two of them share a body. *)
Inductive separated : nat → list Doc → Prop :=
| separated_nil n : separated n []
| separated_cons n doc docs p :
    entry_loc doc = Some p →
    (n ≤ p)%nat →
    separated (S p) docs →
    separated n (doc :: docs).

(** An attachment [preProcessAttachment] has no branch for: no stub, and
    a [data] that is no string. *)
Definition unprocessable (a : Attachment) : bool :=
  negb (att_stub a) &&
  match att_data a with
  | Some (DataString _) => false
  | _ => true
  end.

(** The slot holds no error but the [MISSING_DOC] of a removal. *)
Definition removal_error_only (opts : Opts) (slot : option Result) : Prop :=
  match slot with
  | Some (RError e) =>
      was_delete opts = true ∧ e = createError MISSING_DOC (Some "deleted")
  | _ => True
  end.


(** ** Concrete collaborators for the examples *)

(** The collaborators are not in these two files.  The examples below run
    the code against small stand-ins that follow sections 4.1, 4.2 and 6
    of the specification on the inputs used. *)
Module Fixture.

Definition opt (st : string) (del : jsval) : NodeOpts :=
  {| status := st; opts_deleted := del |}.

Definition field (k : string) (b : Body) : option string :=
  match list_find (fun p => p.1 = k) (b_fields b) with
  | Some (_, (_, v)) => Some v
  | None => None
  end.

Fixpoint digits (acc : Z) (s : string) : option (Z * string) :=
  match s with
  | EmptyString => None
  | String c rest =>
      let n := Z.of_nat (Ascii.nat_of_ascii c) in
      if (48 <=? n) && (n <=? 57) then digits (10 * acc + (n - 48)) rest
      else if (n =? 45) then Some (acc, rest)
      else None
  end.

(** ["3-abc"] is generation 3 and id ["abc"]. *)
Definition parse_rev (rev : string) : option (Z * string) := digits 0 rev.

(** A parser.  The id it draws for a new edit is read from the field
    ["_uuid"] (["u0"] when absent), the deletion flag from ["_deleted"];
    a replicated edit may name its parent in ["_ancestor"]; a field
    ["_bad"] is a validation failure.  Fields whose name starts with an
    underscore do not reach [data]. *)
Definition parseDoc (doc : Body) (newEdits : bool)
  : PouchError + ParseResult :=
  let del := if decide (field "_deleted" doc = Some "true")
             then JBool true else JUndefined in
  let o := opt "available" del in
  let newRevId := default "u0" (field "_uuid" doc) in
  let shape : option (Z * string * Tree) :=
    if newEdits then
      match b_rev doc with
      | Some r =>
          '(p, i) ← parse_rev r;
          Some (p + 1, newRevId,
                [{| pos := p;
                    ids := mkNode i (opt "missing" JUndefined)
                             [mkNode newRevId o []] |}])
      | None => Some (1, newRevId, [{| pos := 1; ids := mkNode newRevId o [] |}])
      end
    else
      r ← b_rev doc;
      '(p, i) ← parse_rev r;
      match field "_ancestor" doc with
      | Some a =>
          Some (p, i,
                [{| pos := p - 1;
                    ids := mkNode a (opt "missing" JUndefined)
                             [mkNode i o []] |}])
      | None => Some (p, i, [{| pos := p; ids := mkNode i o [] |}])
      end in
  match field "_bad" doc, shape with
  | Some k, _ => inl (createError (PARSER_ERROR "doc_validation") (Some k))
  | None, None => inl (createError (PARSER_ERROR "invalid_rev") None)
  | None, Some (p, i, tree) =>
      inr {| metadata :=
               {| m_id := default "generated" (b_id doc);
                  m_rev := rev_string p i;
                  m_rev_tree := tree;
                  m_revs := None;
                  m_deleted := del |};
             data :=
               {| b_id := None; b_rev := None;
                  b_attachments := b_attachments doc;
                  b_fields :=
                    filter (fun p => negb (String.prefix "_" p.1))
                      (b_fields doc) |} |}
  end.

(** Hangs [child] under the node [x] of generation [p]: a new leaf when
    [x] had no child, a new branch otherwise. *)
Fixpoint graft (p : Z) (x : string) (child : Node) (g : Z) (n : Node)
  : option (Node * string) :=
  match n with
  | mkNode i o cs =>
      if (g =? p) && String.eqb i x then
        Some (match cs with
              | [] => (mkNode i o [child], "new_leaf")
              | _ => (mkNode i o (cs ++ [child]), "new_branch")
              end)
      else
        match
          (fix go (cs : list Node) : option (list Node * string) :=
             match cs with
             | [] => None
             | c :: cs' =>
                 match graft p x child (g + 1) c with
                 | Some (c', k) => Some (c' :: cs', k)
                 | None =>
                     match go cs' with
                     | Some (cs'', k) => Some (c :: cs'', k)
                     | None => None
                     end
                 end
             end) cs
        with
        | Some (cs', k) => Some (mkNode i o cs', k)
        | None => None
        end
  end.

Fixpoint graft_roots (p : Z) (x : string) (child : Node) (t : Tree)
  : option (Tree * string) :=
  match t with
  | [] => None
  | r :: t' =>
      match graft p x child (pos r) (ids r) with
      | Some (n, k) => Some ({| pos := pos r; ids := n |} :: t', k)
      | None =>
          match graft_roots p x child t' with
          | Some (t'', k) => Some (r :: t'', k)
          | None => None
          end
      end
  end.

(** The generation of the deepest leaf below a node of generation [g]. *)
Fixpoint deepest (g : Z) (n : Node) : Z :=
  match n with
  | mkNode _ _ cs =>
      (fix go (cs : list Node) : Z :=
         match cs with
         | [] => g
         | c :: cs' => Z.max (deepest (g + 1) c) (go cs')
         end) cs
  end.

(** Stemming as section 4.1 words it: the nodes more than [limit]
    generations behind the deepest leaf are reported and keep their
    place in the tree, marked ["missing"]. *)
Fixpoint stem (cut : Z) (g : Z) (n : Node) : Node * list string :=
  match n with
  | mkNode i o cs =>
      let '(cs', l) :=
        (fix go (cs : list Node) : list Node * list string :=
           match cs with
           | [] => ([], [])
           | c :: cs' =>
               let '(c', l1) := stem cut (g + 1) c in
               let '(cs'', l2) := go cs' in
               (c' :: cs'', (l1 ++ l2)%list)
           end) cs in
      if g <=? cut
      then (mkNode i (opt "missing" (opts_deleted o)) cs',
            rev_string g i :: l)
      else (mkNode i o cs', l)
  end.

Fixpoint stem_roots (limit : Z) (t : Tree) : Tree * list string :=
  match t with
  | [] => ([], [])
  | r :: t' =>
      let '(n, l1) := stem (deepest (pos r) (ids r) - limit) (pos r) (ids r) in
      let '(t'', l2) := stem_roots limit t' in
      ({| pos := pos r; ids := n |} :: t'', (l1 ++ l2)%list)
  end.

Definition merge (tree : Tree) (path : Root) (depth : Z) : MergeResult :=
  let '(t, k) :=
    match tree, ids path with
    | [], _ => ([path], "new_leaf")
    | _, mkNode x _ [child] =>
        default ((tree ++ [path])%list, "internal_node")
          (graft_roots (pos path) x child tree)
    | _, _ => ((tree ++ [path])%list, "internal_node")
    end in
  let '(t', stemmed) := stem_roots depth t in
  {| merged_tree := t'; merged_stemmedRevs := stemmed;
     merged_conflicts := k |}.

(** The leaves of a node: generation, id and deletion flag. *)
Fixpoint leaves (g : Z) (n : Node) : list (Z * string * bool) :=
  match n with
  | mkNode i o [] => [(g, i, truthy (opts_deleted o))]
  | mkNode _ _ cs =>
      (fix go (cs : list Node) : list (Z * string * bool) :=
         match cs with
         | [] => []
         | c :: cs' => (leaves (g + 1) c ++ go cs')%list
         end) cs
  end.

(** Live before deleted, then the greater generation, then the greater
    id. *)
Definition beats (a b : Z * string * bool) : bool :=
  let '(ga, ia, da) := a in
  let '(gb, ib, db) := b in
  if Bool.eqb da db then
    if ga =? gb then String.ltb ib ia else gb <? ga
  else negb da.

Definition calculateWinningRev (t : Tree) : string :=
  match flat_map (fun r => leaves (pos r) (ids r)) t with
  | [] => ""
  | l :: ls =>
      let '(g, i, _) := foldl (fun w c => if beats c w then c else w) l ls in
      rev_string g i
  end.

(** Strings made of letters, digits, [+], [/] and [=] decode. *)
Definition base64_char (c : Ascii.ascii) : bool :=
  let n := Z.of_nat (Ascii.nat_of_ascii c) in
  ((48 <=? n) && (n <=? 57)) || ((65 <=? n) && (n <=? 90)) ||
  ((97 <=? n) && (n <=? 122)) || (n =? 43) || (n =? 47) || (n =? 61).

Definition atob (s : string) : option string :=
  if forallb base64_char (String.list_ascii_of_string s) then Some s else None.

Definition md5 (b : Base64Result) : string :=
  match b with
  | Decoded s => "digest-of-" +:+ s
  | DecodeError _ => "digest-of-object"
  end.

Definition binStringToBlobOrBuffer (b : Base64Result) (ty : option string)
  : Blob :=
  {| blob_content := match b with Decoded s => s | DecodeError _ => "" end;
     blob_type := ty |}.

#[global] Instance deps : Deps :=
  Build_Deps parseDoc merge calculateWinningRev atob md5
    binStringToBlobOrBuffer.

Definition raw (id : string) (rev : option string)
    (fields : list (string * string)) : Body :=
  {| b_id := Some id; b_rev := rev; b_attachments := None;
     b_fields := fields |}.

Definition api0 : MetaData :=
  {| md_name := "db"; md_seq := 0; md_revsLimit := None |}.

Definition edits : Opts := {| new_edits := true; was_delete := false |}.
Definition removal : Opts := {| new_edits := true; was_delete := true |}.
Definition replication : Opts :=
  {| new_edits := false; was_delete := false |}.

(** The successful parse of a raw document, and the incoming document
    [convertDocFormat] makes of it. *)
Definition parsed (newEdits : bool) (doc : Body) : ParseResult :=
  match parseDoc doc newEdits with
  | inr r => r
  | inl _ =>
      {| metadata := {| m_id := ""; m_rev := ""; m_rev_tree := [];
                        m_revs := None; m_deleted := JUndefined |};
         data := doc |}
  end.

Definition incoming (newEdits : bool) (h : Heap) (doc : Body) : Doc * Heap :=
  convertDocFormat h (parsed newEdits doc).

Definition body0 : Body :=
  {| b_id := None; b_rev := None; b_attachments := None; b_fields := [] |}.

(** The record of a document ["a"] whose only revision, [1-x], is a
    deletion; its body is at location 0. *)
Definition deleted_doc : Doc :=
  {| doc_id := "a"; doc_rev := "1-x";
     doc_rev_tree :=
       [{| pos := 1; ids := mkNode "x" (opt "available" (JBool true)) [] |}];
     doc_revs := {[ "1-x" := {| e_data := 0%nat; e_deleted := JBool true |} ]};
     doc_data := Some 0%nat; doc_deleted := JNum 1; doc_seq := Some 1;
     doc_stemmedRevs := None; doc_attachments := Some ∅ |}.

(** A second deletion, of revision [1-x]. *)
Definition delete_again : Body :=
  raw "a" (Some "1-x") [("_uuid", "y"); ("_deleted", "true")].

(** The removal of a document the store does not have, as [remove] sends
    it: with the revision to delete. *)
Definition remove_unknown : Body :=
  raw "a" (Some "1-x") [("_deleted", "true")].

(** A record received by replication with its history, [1-a0] then the
    deletion [2-b]: the root is known by name only. *)
Definition replicated_deletion : Doc :=
  {| doc_id := "a"; doc_rev := "2-b";
     doc_rev_tree :=
       [{| pos := 1;
           ids := mkNode "a0" (opt "missing" JUndefined)
                    [mkNode "b" (opt "available" (JBool true)) []] |}];
     doc_revs := {[ "2-b" := {| e_data := 0%nat; e_deleted := JBool true |} ]};
     doc_data := Some 0%nat; doc_deleted := JNum 1; doc_seq := Some 1;
     doc_stemmedRevs := None; doc_attachments := Some ∅ |}.

(** The document is created again, without a revision. *)
Definition create_again : Body :=
  raw "a" None [("_uuid", "n"); ("title", "again")].

(** The record of a document ["a"] at its first revision [1-x]. *)
Definition stored_doc : Doc :=
  {| doc_id := "a"; doc_rev := "1-x";
     doc_rev_tree :=
       [{| pos := 1; ids := mkNode "x" (opt "available" JUndefined) [] |}];
     doc_revs := {[ "1-x" := {| e_data := 0%nat; e_deleted := JUndefined |} ]};
     doc_data := Some 0%nat; doc_deleted := JNum 0; doc_seq := Some 1;
     doc_stemmedRevs := None; doc_attachments := Some ∅ |}.

(** A document with one attachment whose data is no base64 string. *)
Definition bad_attachment : Body :=
  {| b_id := Some "a"; b_rev := None;
     b_attachments :=
       Some {[ "pic" := {| att_stub := false;
                           att_content_type := Some "image/png";
                           att_data := Some (DataString "not base64!");
                           att_length := None; att_digest := None |} ]};
     b_fields := [("_uuid", "x")] |}.

(** Four replicated edits, three of them of the document ["a"]. *)
Definition batch4 : list Body :=
  [raw "a" (Some "1-x") [];
   raw "a" (Some "2-y") [("_ancestor", "x")];
   raw "b" (Some "1-q") [];
   raw "a" (Some "3-z") [("_ancestor", "y")]].

Definition api7 : MetaData :=
  {| md_name := "db"; md_seq := 7; md_revsLimit := Some 2 |}.

(** The document ["a"] as [update] returns it for the edit [3-z] on the
    history [1-x], [2-y] with a limit of 2 revisions, the three bodies at
    the locations 0, 1 and 2. *)
Definition merged3 : MergeResult :=
  merge
    [{| pos := 1;
        ids := mkNode "x" (opt "available" JUndefined)
                 [mkNode "y" (opt "available" JUndefined) []] |}]
    {| pos := 2;
       ids := mkNode "y" (opt "missing" JUndefined)
                [mkNode "z" (opt "available" JUndefined) []] |}
    2.

Definition doc3 : Doc :=
  {| doc_id := "a"; doc_rev := "3-z";
     doc_rev_tree := merged_tree merged3;
     doc_revs :=
       {[ "1-x" := {| e_data := 0%nat; e_deleted := JUndefined |};
          "2-y" := {| e_data := 1%nat; e_deleted := JUndefined |};
          "3-z" := {| e_data := 2%nat; e_deleted := JUndefined |} ]};
     doc_data := None; doc_deleted := JUndefined; doc_seq := None;
     doc_stemmedRevs := Some (merged_stemmedRevs merged3);
     doc_attachments := None |}.

(** A body with an attachment, as [preProcessAttachments] leaves it. *)
Definition body_att : Body :=
  {| b_id := None; b_rev := None;
     b_attachments :=
       Some {[ "pic" := {| att_stub := false;
                           att_content_type := Some "image/png";
                           att_data :=
                             Some (DataBlob {| blob_content := "abc";
                                               blob_type := Some "image/png" |});
                           att_length := Some 3;
                           att_digest := Some "md5-digest-of-abc" |} ]};
     b_fields := [("title", "t")] |}.

(** Two more records: one stored under ["c"], one the store does not
    have. *)
Definition other_doc : Doc :=
  {| doc_id := "c"; doc_rev := "1-p";
     doc_rev_tree :=
       [{| pos := 1; ids := mkNode "p" (opt "available" JUndefined) [] |}];
     doc_revs := {[ "1-p" := {| e_data := 1%nat; e_deleted := JUndefined |} ]};
     doc_data := Some 1%nat; doc_deleted := JNum 0; doc_seq := Some 2;
     doc_stemmedRevs := None; doc_attachments := Some ∅ |}.

Definition unknown_doc : Doc :=
  {| doc_id := "z"; doc_rev := "1-q";
     doc_rev_tree :=
       [{| pos := 1; ids := mkNode "q" (opt "available" JUndefined) [] |}];
     doc_revs := {[ "1-q" := {| e_data := 2%nat; e_deleted := JUndefined |} ]};
     doc_data := None; doc_deleted := JUndefined; doc_seq := None;
     doc_stemmedRevs := None; doc_attachments := None |}.

(** The attachment of [body_att]. *)
Definition pic_att : Attachment :=
  {| att_stub := false; att_content_type := Some "image/png";
     att_data :=
       Some (DataBlob {| blob_content := "abc";
                         blob_type := Some "image/png" |});
     att_length := Some 3; att_digest := Some "md5-digest-of-abc" |}.

(** A new document with one attachment sent as a base64 string. *)
Definition good_attachment : Body :=
  {| b_id := Some "a"; b_rev := None;
     b_attachments :=
       Some {[ "pic" := {| att_stub := false;
                           att_content_type := Some "text/plain";
                           att_data := Some (DataString "aGVsbG8=");
                           att_length := None; att_digest := None |} ]};
     b_fields := [("_uuid", "x"); ("title", "t")] |}.

(** A document whose attachment comes with binary data, not a string. *)
Definition blob_attachment : Body :=
  {| b_id := Some "b"; b_rev := None;
     b_attachments := Some {[ "pic" := pic_att ]};
     b_fields := [("_uuid", "q")] |}.

End Fixture.

(** * Properties *)

(** ** getAttachment *)

(** C10: the handler of [getAttachment] either calls [cb] with [null] as
    the error or throws, and no call of [cb] carries an error.  It calls
    [cb] exactly when the document is in the store, has its [attachments]
    and either has an attachment of that name, whose [data] it delivers,
    or the name is inherited by every object, and then it delivers
    [undefined].  It throws when the document is not in the store, when
    the record has no [attachments], and when the document has no
    attachment of that name and the name is not an inherited one. *)
Theorem getAttachment_null_error_or_throw
    (store : gmap string Doc) (docId attachId : string) :
  match getAttachment store docId attachId with
  | Some cb =>
      cb_err cb = None ∧
      ∃ doc attachments,
        store !! docId = Some doc ∧
        doc_attachments doc = Some attachments ∧
        match attachments !! attachId with
        | Some attachment => cb_data cb = att_data attachment
        | None => inherited attachId = true ∧ cb_data cb = None
        end
  | None =>
      store !! docId = None ∨
      ∃ doc, store !! docId = Some doc ∧
             (doc_attachments doc = None ∨
              ∃ attachments,
                doc_attachments doc = Some attachments ∧
                attachments !! attachId = None ∧
                inherited attachId = false)
  end.
Proof.
  unfold getAttachment.
  destruct (store !! docId) as [doc|] eqn:Hdoc; simpl; [|by left].
  destruct (doc_attachments doc) as [atts|] eqn:Hatts; simpl.
  - destruct (atts !! attachId) as [att|] eqn:Hatt; simpl.
    + split; [done|]. exists doc, atts. by rewrite Hatt.
    + destruct (inherited attachId) eqn:Hin; simpl.
      * split; [done|]. exists doc, atts. by rewrite Hatt.
      * right. exists doc. split; [done|]. right. by exists atts.
  - right. exists doc. split; [done|]. by left.
Qed.

(** C10 (as stated) fails on the names every object inherits: the stored
    document ["a"] has no attachment, none named ["toString"] either, and
    the handler does not throw but calls [cb] with [null] and
    [undefined]. *)
Lemma getAttachment_inherited_name_does_not_throw :
  ({[ "a" := Fixture.stored_doc ]} : gmap string Doc) !! "a" =
    Some Fixture.stored_doc ∧
  (doc_attachments Fixture.stored_doc ≫= fun a => a !! "toString") = None ∧
  getAttachment {[ "a" := Fixture.stored_doc ]} "a" "toString" =
    Some {| cb_err := None; cb_data := None |}.
Proof. repeat split; vm_compute; reflexivity. Qed.

(** ** The parse loop *)

Section ParseLoop.
Context `{Deps}.
Variable opts : Opts.

Lemma parse_loop_first_error (h : Heap) (pre post : list Body) raw err :
  (∀ x, x ∈ pre → ∃ r, parseDoc x (new_edits opts) = inr r) →
  parseDoc raw (new_edits opts) = inl err →
  parse_loop opts h (pre ++ raw :: post) = inl err.
Proof.
  intros Hpre Hraw. revert h.
  induction pre as [|x pre IH]; intros h; simpl.
  - by rewrite Hraw.
  - destruct (Hpre x) as [r Hr]; [by left|]. rewrite Hr.
    destruct (convertDocFormat h r) as [doc h1].
    rewrite IH; [done|]. intros y Hy. apply Hpre. by right.
Qed.

Lemma parse_loop_length (h h' : Heap) (req : list Body) (docs : list Doc) :
  parse_loop opts h req = inr (docs, h') → length docs = length req.
Proof.
  revert h docs h'. induction req as [|raw req IH]; intros h docs h'; simpl.
  - by intros [= <- <-].
  - destruct (parseDoc raw (new_edits opts)) as [e|r]; [done|].
    destruct (convertDocFormat h r) as [doc h1].
    destruct (parse_loop opts h1 req) as [e|[ds h2]] eqn:Hrest; [done|].
    intros [= <- <-]. simpl. f_equal. by eapply IH.
Qed.

End ParseLoop.

(** C3 (as amended): when the parser fails on a document of the batch and
    succeeded on those before it, the call opens its transaction, hands
    that error alone to the callback, places no request on the
    transaction and delivers no results. *)
Theorem bulkDocs_parse_failure `{Deps}
    (store : gmap string Doc) (h0 : Heap) (api : MetaData) (opts : Opts)
    (pre post : list Body) (raw : Body) (err : PouchError) :
  (∀ x, x ∈ pre → ∃ r, parseDoc x (new_edits opts) = inr r) →
  parseDoc raw (new_edits opts) = inl err →
  bulkDocs store h0 api opts (pre ++ raw :: post) =
    {| run_events := [EvTransaction; EvCallback (Some err) None];
       run_final := None |}.
Proof.
  intros Hpre Hraw. unfold bulkDocs.
  by rewrite (parse_loop_first_error opts h0 pre post raw err Hpre Hraw).
Qed.

Lemma bulkDocs_parse_failure_witness :
  bulkDocs ∅ [] Fixture.api0 Fixture.edits
    ([Fixture.raw "a" None []] ++
     Fixture.raw "b" None [("_bad", "_x")] ::
     [Fixture.raw "c" None [("_bad", "_y")]]) =
    {| run_events :=
         [EvTransaction;
          EvCallback
            (Some (createError (PARSER_ERROR "doc_validation") (Some "_x")))
            None];
       run_final := None |}.
Proof.
  apply bulkDocs_parse_failure.
  - intros x Hx. apply list_elem_of_singleton in Hx as ->.
    eexists. vm_compute. reflexivity.
  - vm_compute. reflexivity.
Defined.

(** C3 (as stated) fails: on a batch whose only document does not parse,
    the call has opened its transaction. *)
Lemma bulkDocs_parse_failure_opens_transaction :
  parseDoc (Fixture.raw "b" None [("_bad", "_x")])
    (new_edits Fixture.edits) =
    inl (createError (PARSER_ERROR "doc_validation") (Some "_x")) ∧
  EvTransaction ∈
    run_events (bulkDocs ∅ [] Fixture.api0 Fixture.edits
                  [Fixture.raw "b" None [("_bad", "_x")]]).
Proof. split; [vm_compute; reflexivity|]. vm_compute. by left. Qed.

(** ** The conflict policy of [update] *)

Section Update.
Context `{Deps}.
Variable opts : Opts.
Variable revsLimit : Z.

Lemma alloc_lookup (h : Heap) (b : Body) :
  (alloc h b).2 !! (alloc h b).1 = Some b.
Proof.
  unfold alloc; simpl. rewrite lookup_app_r; [|lia].
  by rewrite Nat.sub_diag.
Qed.

(** What [convertDocFormat] builds has no [deleted] property, and its
    [revs] holds the parsed revision, with the deletion flag of the
    parser and the parsed body. *)
Lemma convertDocFormat_spec (h : Heap) (r : ParseResult) :
  let '(doc, h') := convertDocFormat h r in
  doc_deleted doc = JUndefined ∧
  doc_id doc = m_id (metadata r) ∧
  doc_rev doc = m_rev (metadata r) ∧
  doc_rev_tree doc = m_rev_tree (metadata r) ∧
  ∃ e, doc_revs doc !! doc_rev doc = Some e ∧
       e_deleted e = m_deleted (metadata r) ∧
       h' !! e_data e = Some (data r).
Proof.
  unfold convertDocFormat.
  destruct (alloc_revs h (default [] (m_revs (metadata r)))) as [revs h1].
  pose proof (alloc_lookup h1 (data r)) as Hl.
  destruct (alloc h1 (data r)) as [p h2]. simpl in *.
  repeat split; try done.
  eexists. rewrite lookup_insert_eq. by repeat split.
Qed.

Lemma eqb_false_of_ne (s t : string) : s ≠ t → String.eqb s t = false.
Proof. intros Hne. by apply String.eqb_neq. Qed.

(** [update] decides by the formula of lines 153-155, read on the
    [deleted] property of the two document objects. *)
Lemma update_result (h : Heap) (doc oldDoc : Doc) (out : UpdateOutcome) :
  update opts revsLimit h doc oldDoc = Some out →
  doc_revs oldDoc !! doc_rev doc = None →
  ∃ doc3 merged,
    doc_rev_tree doc3 = merged_tree merged ∧
    doc_stemmedRevs doc3 = Some (merged_stemmedRevs merged) ∧
    (∃ path, merged = merge (doc_rev_tree oldDoc) path revsLimit) ∧
    u_result out =
      if inConflict opts oldDoc doc3 merged
      then Rejected (createError REV_CONFLICT None)
      else Accepted doc3.
Proof.
  intros Hup Hnew. unfold update in Hup.
  destruct (decide (is_Some (doc_revs oldDoc !! doc_rev doc))) as [[e He]|_];
    [congruence|].
  destruct (if _ : bool then reattach opts h doc oldDoc else Some (doc, h))
    as [[doc1 h1]|]; simpl in Hup; [|done].
  destruct (head (doc_rev_tree doc1)) as [path|]; simpl in Hup; [|done].
  injection Hup as <-. simpl.
  eexists _, (merge (doc_rev_tree oldDoc) path revsLimit).
  repeat split; eauto.
Qed.

(** The tree the caller's document object holds after [update]: the
    merge result, unless the document was re-attached, in which case the
    object is as it was given. *)
Lemma update_caller_doc (h : Heap) (doc oldDoc : Doc) (out : UpdateOutcome) :
  update opts revsLimit h doc oldDoc = Some out →
  u_result out ≠ Skipped →
  if reattaches opts doc oldDoc then u_doc out = doc
  else ∃ path, head (doc_rev_tree doc) = Some path ∧
               doc_rev_tree (u_doc out) =
                 merged_tree (merge (doc_rev_tree oldDoc) path revsLimit).
Proof.
  unfold update.
  destruct (decide (is_Some (doc_revs oldDoc !! doc_rev doc))).
  { by intros [= <-]. }
  destruct (reattaches opts doc oldDoc).
  - destruct (reattach opts h doc oldDoc) as [[doc1 h1]|]; simpl; [|done].
    destruct (head (doc_rev_tree doc1)); simpl; [|done]. by intros [= <-].
  - simpl. destruct (head (doc_rev_tree doc)) as [path|]; simpl; [|done].
    intros [= <-] _. by exists path.
Qed.

End Update.

(** C1 (where the code departs from it): in new_edits mode [update]
    accepts a new revision that is a deletion, on a prior record whose
    winning leaf is a deletion, whenever the merge does not report a new
    branch.  The incoming document has no [deleted] property (the parser's
    flag is in [doc.revs[doc.rev].deleted]), so the first disjunct of
    [inConflict] is never true for it. *)
Theorem update_accepts_deleting_a_deleted_doc `{Deps}
    (opts : Opts) (revsLimit : Z) (h : Heap) (doc oldDoc : Doc)
    (path : Root) (e : RevEntry) :
  new_edits opts = true →
  truthy (doc_deleted oldDoc) = true →
  doc_deleted doc = JUndefined →
  doc_revs doc !! doc_rev doc = Some e →
  truthy (e_deleted e) = true →
  doc_revs oldDoc !! doc_rev doc = None →
  isRoot (doc_rev doc) = false →
  head (doc_rev_tree doc) = Some path →
  merged_conflicts (merge (doc_rev_tree oldDoc) path revsLimit)
    ≠ "new_branch" →
  ∃ out d, update opts revsLimit h doc oldDoc = Some out ∧
           u_result out = Accepted d ∧
           doc_revs d !! doc_rev d = Some e.
Proof.
  intros Hne Hold Hdoc He Hdel Hnew Hroot Hpath Hk.
  unfold update.
  destruct (decide (is_Some (doc_revs oldDoc !! doc_rev doc))) as [[? ?]|_];
    [congruence|].
  unfold reattaches. rewrite Hold, Hdoc, Hne, Hroot. simpl.
  rewrite Hpath. simpl.
  rewrite He. unfold inConflict. simpl.
  rewrite Hold, Hdoc, Hne. simpl.
  rewrite (eqb_false_of_ne _ _ Hk).
  eexists _, _. split; [reflexivity|]. split; [reflexivity|].
  simpl. by rewrite lookup_insert_eq.
Qed.

Lemma update_accepts_deleting_a_deleted_doc_witness :
  let '(doc, h) := Fixture.incoming true [Fixture.body0] Fixture.delete_again in
  ∃ out d, update Fixture.edits 1000 h doc Fixture.deleted_doc = Some out ∧
           u_result out = Accepted d ∧
           doc_revs d !! doc_rev d =
             Some {| e_data := 1%nat; e_deleted := JBool true |}.
Proof.
  apply (update_accepts_deleting_a_deleted_doc Fixture.edits 1000
           [Fixture.body0; Fixture.body0]
           (Fixture.incoming true [Fixture.body0] Fixture.delete_again).1
           Fixture.deleted_doc
           {| pos := 1;
              ids := mkNode "x" (Fixture.opt "missing" JUndefined)
                       [mkNode "y" (Fixture.opt "available" (JBool true)) []] |}
           {| e_data := 1%nat; e_deleted := JBool true |});
    vm_compute; try reflexivity; discriminate.
Defined.

(** The same input through the whole call: the store holds the deleted
    document, the batch deletes it again, and the slot is a success. *)
Example bulkDocs_deleting_a_deleted_doc :
  delivered
    (bulkDocs {[ "a" := Fixture.deleted_doc ]} [Fixture.body0]
       Fixture.api0 Fixture.edits [Fixture.delete_again]) =
    Some [Some (ROk "a" "2-y")].
Proof. vm_compute. reflexivity. Qed.

(** ** One iteration of [processDocs] *)

(** A document without prior record whose id is an inherited name is
    taken for a known one: [update] runs on the inherited member and
    throws, whatever the options. *)
Lemma processDoc_inherited_id_throws `{Deps} (opts : Opts) (revsLimit : Z)
    (st : State) (i : nat) (doc : Doc) :
  st_oldDocs st !! doc_id doc = None →
  inherited (doc_id doc) = true →
  processDoc opts revsLimit st i doc = None.
Proof.
  intros Hold Hin. unfold processDoc, resolve. by rewrite Hold, Hin.
Qed.

(** A removal of an unknown document gets [MISSING_DOC] when the check of
    line 95 does not fire. *)
Lemma processDoc_missing_doc `{Deps} (opts : Opts) (revsLimit : Z)
    (st : State) (i : nat) (doc : Doc) :
  was_delete opts = true →
  st_oldDocs st !! doc_id doc = None →
  inherited (doc_id doc) = false →
  (if new_edits opts then rootIsMissing doc else Some false) = Some false →
  processDoc opts revsLimit st i doc =
    Some (rejected st (st_heap st) (st_oldDocs st) i
            (createError MISSING_DOC (Some "deleted"))).
Proof.
  intros Hdel Hold Hin Hroot. unfold processDoc, resolve.
  rewrite Hold, Hin, Hdel. simpl. by rewrite Hroot.
Qed.

(** C7 (where the code departs from it): in new_edits mode, a removal of
    a document without prior record whose tree has a ['missing'] root (the
    tree the parser builds when the caller gives the revision to delete)
    ends with [REV_CONFLICT] in its slot: the check of line 95 replaces the
    [MISSING_DOC] of line 73.  Nothing else of the state changes.  When
    the id is an inherited name the document is taken for a known one and
    the iteration throws: no slot is filled, with neither error. *)
Theorem processDoc_missing_doc_overridden `{Deps} (opts : Opts)
    (revsLimit : Z) (st : State) (i : nat) (doc : Doc) :
  was_delete opts = true →
  st_oldDocs st !! doc_id doc = None →
  new_edits opts = true →
  rootIsMissing doc = Some true →
  processDoc opts revsLimit st i doc =
    if inherited (doc_id doc) then None
    else Some (rejected st (st_heap st) (st_oldDocs st) i
                 (createError REV_CONFLICT None)).
Proof.
  intros Hdel Hold Hne Hroot. unfold processDoc, resolve.
  rewrite Hold. destruct (inherited (doc_id doc)); [done|].
  rewrite Hdel. simpl. by rewrite Hne, Hroot.
Qed.

Lemma processDoc_missing_doc_overridden_witness :
  let '(doc, h) := Fixture.incoming true [] Fixture.remove_unknown in
  processDoc Fixture.removal 1000 (state_at h ∅ 0) 0 doc =
    Some {| st_heap := h; st_oldDocs := ∅; st_seq := 0;
            st_results := [Some (RError (createError REV_CONFLICT None))];
            st_puts := [] |}.
Proof.
  apply (processDoc_missing_doc_overridden Fixture.removal 1000
           (state_at [Fixture.body0] ∅ 0) 0
           (Fixture.incoming true [] Fixture.remove_unknown).1);
    vm_compute; reflexivity.
Defined.

(** The same input through the whole call. *)
Example bulkDocs_removing_unknown_doc :
  delivered (bulkDocs ∅ [] Fixture.api0 Fixture.removal
               [Fixture.remove_unknown]) =
    Some [Some (RError (createError REV_CONFLICT None))].
Proof. vm_compute. reflexivity. Qed.

(** C9 (as amended): in new_edits mode, when an iteration takes the
    new-document branch or the update branch and is not skipped as a
    re-submission, and the tree held by the incoming document object at the
    check of line 95 has a ['missing'] first root, the slot of the document
    is [REV_CONFLICT] and nothing is written.  [doc'] is that object as
    [resolve] leaves it. *)
Theorem processDoc_root_missing_conflict `{Deps} (opts : Opts)
    (revsLimit : Z) (st : State) (i : nat) (doc doc' : Doc) (h : Heap)
    (oldDocs : gmap string Doc) (newDoc : Updated) :
  new_edits opts = true →
  ¬ (was_delete opts = true ∧ st_oldDocs st !! doc_id doc = None) →
  resolve opts revsLimit st doc = Some (h, doc', oldDocs, newDoc) →
  newDoc ≠ Skipped →
  rootIsMissing doc' = Some true →
  processDoc opts revsLimit st i doc =
    Some (rejected st h oldDocs i (createError REV_CONFLICT None)).
Proof.
  intros Hne _ Hres Hskip Hroot. unfold processDoc.
  rewrite Hres. simpl. rewrite Hne, Hroot.
  by destruct newDoc.
Qed.

(** On the new-document branch the object carries the merge result. *)
Lemma resolve_new_doc `{Deps} (opts : Opts) (revsLimit : Z) (st : State)
    (doc : Doc) (path : Root) :
  st_oldDocs st !! doc_id doc = None →
  inherited (doc_id doc) = false →
  was_delete opts = false →
  head (doc_rev_tree doc) = Some path →
  resolve opts revsLimit st doc =
    Some (st_heap st, set_merged doc (merge [] path revsLimit),
          st_oldDocs st, Accepted (set_merged doc (merge [] path revsLimit))).
Proof.
  intros Hold Hin Hdel Hpath. unfold resolve.
  by rewrite Hold, Hin, Hdel, Hpath.
Qed.

Lemma processDoc_root_missing_conflict_witness :
  let '(doc, h) := Fixture.incoming true [] Fixture.remove_unknown in
  processDoc Fixture.edits 1000 (state_at h ∅ 0) 0 doc =
    Some {| st_heap := h; st_oldDocs := ∅; st_seq := 0;
            st_results := [Some (RError (createError REV_CONFLICT None))];
            st_puts := [] |}.
Proof.
  pose (d := (Fixture.incoming true [] Fixture.remove_unknown).1).
  apply (processDoc_root_missing_conflict Fixture.edits 1000
           (state_at [Fixture.body0] ∅ 0) 0 d
           (set_merged d (merge [] {| pos := 1;
              ids := mkNode "x" (Fixture.opt "missing" JUndefined)
                       [mkNode "u0" (Fixture.opt "available" (JBool true)) []] |}
              1000))
           [Fixture.body0] ∅
           (Accepted (set_merged d (merge [] {| pos := 1;
              ids := mkNode "x" (Fixture.opt "missing" JUndefined)
                       [mkNode "u0" (Fixture.opt "available" (JBool true)) []] |}
              1000)))).
  - reflexivity.
  - intros [Hw _]. discriminate Hw.
  - vm_compute. reflexivity.
  - discriminate.
  - vm_compute. reflexivity.
Defined.

(** C9 (as stated) fails on the re-attachment path.  The store holds a
    deleted document whose tree has a ['missing'] root; the document is
    created again in new_edits mode.  [update] merges the re-parsed copy,
    the check of line 95 reads the tree of the object it was given, and
    the record is written: its tree, the merge result, has a ['missing']
    first root and its slot is a success. *)
Lemma reattached_doc_with_missing_root_is_written :
  new_edits Fixture.edits = true ∧
  ∃ st d h,
    run_final (bulkDocs {[ "a" := Fixture.replicated_deletion ]}
                 [Fixture.body0] Fixture.api0 Fixture.edits
                 [Fixture.create_again]) = Some st ∧
    st_puts st = [(0%nat, d, h)] ∧
    rootIsMissing d = Some true ∧
    st_results st = [Some (ROk "a" "3-u0")].
Proof.
  split; [reflexivity|]. eexists _, _, _.
  split; [vm_compute; reflexivity|].
  split; [reflexivity|]. split; vm_compute; reflexivity.
Qed.

(** ** The results array *)

Section Results.
Context `{Deps}.
Variable opts : Opts.
Variable revsLimit : Z.

Lemma js_assign_Forall {A} (P : option A → Prop) (l : list (option A))
    (i : nat) (x : A) :
  P None → P (Some x) → Forall P l → Forall P (js_assign l i x).
Proof.
  intros Hn Hx Hl. unfold js_assign.
  destruct (decide (i < length l)%nat).
  - apply Forall_insert; done.
  - apply Forall_app. split; [done|].
    apply Forall_app. split; [|by constructor].
    by apply Forall_replicate.
Qed.

Lemma update_rejected (h : Heap) (doc oldDoc : Doc) (out : UpdateOutcome)
    (e : PouchError) :
  update opts revsLimit h doc oldDoc = Some out →
  u_result out = Rejected e → e = createError REV_CONFLICT None.
Proof.
  unfold update.
  destruct (decide (is_Some (doc_revs oldDoc !! doc_rev doc))).
  - by intros [= <-].
  - destruct (if _ : bool then reattach opts h doc oldDoc else Some (doc, h))
      as [[doc1 h1]|]; simpl; [|done].
    destruct (head (doc_rev_tree doc1)) as [path|]; simpl; [|done].
    intros [= <-]. simpl. destruct (inConflict _ _ _ _); congruence.
Qed.

Lemma resolve_rejected (st : State) (doc doc' : Doc) (h : Heap)
    (oldDocs : gmap string Doc) (e : PouchError) :
  resolve opts revsLimit st doc = Some (h, doc', oldDocs, Rejected e) →
  policy_slot (Some (RError e)).
Proof.
  unfold resolve.
  destruct (st_oldDocs st !! doc_id doc) as [oldDoc|].
  - destruct (update opts revsLimit (st_heap st) doc oldDoc) as [out|] eqn:Hup;
      simpl; [|done].
    intros [= _ _ _ Hr]. right. by eapply update_rejected.
  - destruct (inherited (doc_id doc)); [done|].
    destruct (was_delete opts).
    + intros [= _ _ _ <-]. by left.
    + destruct (head (doc_rev_tree doc)); simpl; [|done]. by intros [=].
Qed.

Lemma processDoc_policy (st st' : State) (i : nat) (doc : Doc) :
  processDoc opts revsLimit st i doc = Some st' →
  Forall policy_slot (st_results st) → Forall policy_slot (st_results st').
Proof.
  unfold processDoc.
  destruct (resolve opts revsLimit st doc) as [[[[h doc'] oldDocs] newDoc]|]
    eqn:Hres; simpl; [|done].
  intros Hp Hall.
  assert (Hconf : policy_slot
                    (Some (RError (createError REV_CONFLICT None))))
    by by right.
  assert (Hstep : ∀ d, match write h (st_seq st) d with
    | Some (h', seq', d') =>
        Some {| st_heap := h'; st_oldDocs := written doc d' oldDocs;
                st_seq := seq';
                st_results := js_assign (st_results st) i
                                (ROk (doc_id d') (doc_rev d'));
                st_puts := (st_puts st ++ [(i, d', h')])%list |}
    | None => None end = Some st' → Forall policy_slot (st_results st')).
  { intros d. destruct (write h (st_seq st) d) as [[[h' seq'] d']|]; [|done].
    intros [= <-]. simpl. by apply js_assign_Forall. }
  destruct newDoc as [|e|d].
  - by injection Hp as <-.
  - destruct (if new_edits opts then rootIsMissing doc' else Some false)
      as [[|]|]; simpl in Hp; [| |done].
    + injection Hp as <-. simpl. by apply js_assign_Forall.
    + injection Hp as <-. simpl. apply js_assign_Forall; [done| |done].
      by eapply resolve_rejected.
  - destruct (if new_edits opts then rootIsMissing doc' else Some false)
      as [[|]|]; simpl in Hp; [| |done].
    + injection Hp as <-. simpl. by apply js_assign_Forall.
    + by eapply Hstep.
Qed.

Lemma processDocs_policy (docs : list Doc) (i : nat) (st : State) :
  Forall policy_slot (st_results st) →
  Forall policy_slot (st_results (processDocs opts revsLimit i docs st)).
Proof.
  revert i st. induction docs as [|doc docs IH]; intros i st Hall; simpl.
  - done.
  - destruct (processDoc opts revsLimit st i doc) as [st'|] eqn:Hstep; [|done].
    apply IH. by eapply processDoc_policy.
Qed.

End Results.

Lemma policy_slot_not_bad_arg (slot : option Result) (e : PouchError) :
  policy_slot slot → slot = Some (RError e) → err_template e ≠ BAD_ARG.
Proof. intros Hp ->. by destruct Hp as [-> | ->]. Qed.

(** C4 (where the code departs from it): whatever the batch and whatever
    the attachments decode to, the errors of the [results] a call delivers
    are the [MISSING_DOC] and [REV_CONFLICT] of [processDocs]; the
    [BAD_ARG] object [parseBase64] returns for an undecodable attachment
    is in no slot. *)
Theorem results_never_hold_bad_arg `{Deps}
    (store : gmap string Doc) (h0 : Heap) (api : MetaData) (opts : Opts)
    (req : list Body) :
  Forall (fun slot =>
            policy_slot slot ∧
            ∀ e, slot = Some (RError e) → err_template e ≠ BAD_ARG)
    (default [] (delivered (bulkDocs store h0 api opts req))).
Proof.
  apply (Forall_impl policy_slot).
  2: { intros slot Hp. split; [done|]. intros e.
       by apply policy_slot_not_bad_arg. }
  unfold delivered, bulkDocs.
  destruct (parse_loop opts h0 req) as [err|[docs h1]]; simpl; [done|].
  destruct (preProcessAttachments h1 docs) as [h2|]; simpl; [|done].
  destruct docs as [|doc docs]; simpl; [done|].
  destruct (processDoc _ _ _ _ _) as [st'|] eqn:Hstep; simpl; [|done].
  apply processDocs_policy. eapply processDoc_policy; [exact Hstep|done].
Qed.

(** [parseBase64] does build the error, with a fixed message. *)
Lemma parseBase64_invalid `{Deps} (data : string) :
  atob data = None →
  parseBase64 data =
    DecodeError
      (createError BAD_ARG (Some "Attachment is not a valid base64 string")).
Proof. intros Hd. unfold parseBase64. by rewrite Hd. Qed.

(** The input of the claim through the whole call: the attachment does
    not decode and the document is written. *)
Example bulkDocs_bad_attachment :
  atob "not base64!" = None ∧
  delivered (bulkDocs ∅ [] Fixture.api0 Fixture.edits
               [Fixture.bad_attachment]) =
    Some [Some (ROk "a" "1-x")].
Proof. split; vm_compute; reflexivity. Qed.

(** A document whose revision the prior record already has is skipped:
    the iteration returns before anything is assigned. *)
Lemma processDoc_skips_recorded `{Deps} (opts : Opts) (revsLimit : Z)
    (st : State) (i : nat) (doc oldDoc : Doc) :
  st_oldDocs st !! doc_id doc = Some oldDoc →
  is_Some (doc_revs oldDoc !! doc_rev doc) →
  processDoc opts revsLimit st i doc = Some st.
Proof.
  intros Hold Hrev. unfold processDoc, resolve, update. rewrite Hold.
  by destruct (decide (is_Some (doc_revs oldDoc !! doc_rev doc))).
Qed.

(** C2 (where the code departs from it): a batch of one document that
    parses, has no attachment, and re-submits a revision the stored record
    already holds is delivered an empty [results]: no slot for the
    document, and a length of 0 for a batch of 1. *)
Theorem bulkDocs_resubmission_leaves_no_slot `{Deps}
    (store : gmap string Doc) (h0 : Heap) (api : MetaData) (opts : Opts)
    (raw : Body) (r : ParseResult) (old : Doc) :
  parseDoc raw (new_edits opts) = inr r →
  b_attachments (data r) = None →
  store !! m_id (metadata r) = Some old →
  doc_id old = m_id (metadata r) →
  is_Some (doc_revs old !! m_rev (metadata r)) →
  delivered (bulkDocs store h0 api opts [raw]) = Some [].
Proof.
  intros Hparse Hatt Hstore Hid Hrev.
  unfold delivered, bulkDocs. simpl. rewrite Hparse.
  pose proof (convertDocFormat_spec h0 r) as Hdoc.
  destruct (convertDocFormat h0 r) as [doc h1].
  destruct Hdoc as (_ & Hdid & Hdrev & _ & e & He & _ & Hbody). simpl.
  unfold preProcessDoc. rewrite He. simpl. rewrite Hbody. simpl.
  rewrite Hatt. simpl.
  rewrite (processDoc_skips_recorded opts (revsLimit_of api) _ 0 doc old);
    [done| |by rewrite Hdrev].
  unfold fetchExistingDocs. simpl.
  rewrite Hdid, Hstore, Hid. apply lookup_insert_eq.
Qed.

Lemma bulkDocs_resubmission_leaves_no_slot_witness :
  delivered
    (bulkDocs {[ "a" := Fixture.stored_doc ]} [Fixture.body0] Fixture.api0
       Fixture.replication [Fixture.raw "a" (Some "1-x") []]) = Some [].
Proof.
  apply (bulkDocs_resubmission_leaves_no_slot _ _ _ _ _
           (Fixture.parsed false (Fixture.raw "a" (Some "1-x") []))
           Fixture.stored_doc).
  - vm_compute. reflexivity.
  - reflexivity.
  - vm_compute. reflexivity.
  - reflexivity.
  - eexists. vm_compute. reflexivity.
Defined.

(** In a longer batch the slot of such a document is a hole. *)
Example bulkDocs_resubmission_hole :
  delivered
    (bulkDocs {[ "a" := Fixture.stored_doc ]} [Fixture.body0] Fixture.api0
       Fixture.replication
       [Fixture.raw "a" (Some "1-x") []; Fixture.raw "b" (Some "1-q") []]) =
    Some [None; Some (ROk "b" "1-q")].
Proof. vm_compute. reflexivity. Qed.

(** ** [write] *)

Section Write.
Context `{Deps}.

Lemma lookup_drop_stemmed (revs : gmap string RevEntry) (l : list string)
    (rev : string) :
  drop_stemmed revs (Some l) !! rev =
    if decide (rev ∈ l) then None else revs !! rev.
Proof.
  unfold drop_stemmed. revert revs.
  induction l as [|r l IH]; intros revs; cbn [foldl].
  - destruct (decide (rev ∈ [])) as [Hin|_]; [|done].
    by apply not_elem_of_nil in Hin.
  - rewrite IH.
    destruct (decide (rev ∈ l)) as [Hin|Hnin],
             (decide (rev ∈ r :: l)) as [Hin'|Hnin']; try done.
    + exfalso. apply Hnin'. by right.
    + apply elem_of_cons in Hin' as [->|?]; [|done].
      apply lookup_delete_eq.
    + apply lookup_delete_ne. intros ->. apply Hnin'. by left.
Qed.

(** What [write] leaves in each property of the record. *)
Lemma write_spec (h h' : Heap) (seq seq' : Z) (doc d' : Doc) :
  write h seq doc = Some (h', seq', d') →
  ∃ e body,
    doc_revs doc !! calculateWinningRev (doc_rev_tree doc) = Some e ∧
    h !! e_data e = Some body ∧
    (∃ body', h' !! e_data e = Some body') ∧
    seq' = seq + 1 ∧
    doc_id d' = doc_id doc ∧
    doc_rev d' = calculateWinningRev (doc_rev_tree doc) ∧
    doc_rev_tree d' = doc_rev_tree doc ∧
    doc_revs d' = drop_stemmed (doc_revs doc) (doc_stemmedRevs doc) ∧
    doc_data d' = Some (e_data e) ∧
    doc_deleted d' = JNum (if truthy (e_deleted e) then 1 else 0) ∧
    doc_seq d' = Some (seq + 1) ∧
    doc_stemmedRevs d' = None.
Proof.
  unfold write.
  destruct (doc_revs doc !! calculateWinningRev (doc_rev_tree doc))
    as [e|] eqn:He; simpl; [|done].
  destruct (h !! e_data e) as [body|] eqn:Hb; simpl; [|done].
  destruct (b_attachments body) as [atts|]; intros [= <- <- <-]; simpl;
    exists e, body; repeat split; try done.
  - eexists. apply list_lookup_insert_eq. by eapply lookup_lt_Some.
  - by exists body.
Qed.

End Write.

(** C6: the record [write] hands to [put] has as [rev] the winning
    revision of its tree; its [data] is the body object held by the entry
    of that revision in [revs] (the same location, so the same body in the
    stored clone), its [deleted] is 1 when that entry is a deletion and 0
    otherwise, and the entry is still in the stored [revs] unless the
    merge reported the winning revision itself as stemmed. *)
Theorem write_denormalizes_winner `{Deps}
    (h h' : Heap) (seq seq' : Z) (doc d' : Doc) :
  write h seq doc = Some (h', seq', d') →
  doc_rev d' = calculateWinningRev (doc_rev_tree d') ∧
  ∃ e body,
    doc_revs doc !! doc_rev d' = Some e ∧
    doc_data d' = Some (e_data e) ∧
    h' !! e_data e = Some body ∧
    doc_deleted d' = JNum (if truthy (e_deleted e) then 1 else 0) ∧
    (doc_rev d' ∉ default [] (doc_stemmedRevs doc) →
     doc_revs d' !! doc_rev d' = Some e).
Proof.
  intros Hw.
  destruct (write_spec _ _ _ _ _ _ Hw)
    as (e & body & He & _ & [body' Hb'] & _ & _ & Hrev & Htree & Hrevs &
        Hdata & Hdel & _ & _).
  rewrite Htree, Hrev. split; [done|].
  exists e, body'. repeat split; try done.
  intros Hnin. rewrite Hrevs.
  destruct (doc_stemmedRevs doc) as [l|]; [|done].
  rewrite lookup_drop_stemmed. by rewrite decide_False.
Qed.

Lemma write_denormalizes_winner_witness :
  ∃ h' seq' d',
    write [Fixture.body0; Fixture.body0; Fixture.body_att] 10 Fixture.doc3 =
      Some (h', seq', d') ∧
    doc_rev d' = calculateWinningRev (doc_rev_tree d') ∧
    ∃ e body,
      doc_revs Fixture.doc3 !! doc_rev d' = Some e ∧
      doc_data d' = Some (e_data e) ∧
      h' !! e_data e = Some body ∧
      doc_deleted d' = JNum (if truthy (e_deleted e) then 1 else 0) ∧
      (doc_rev d' ∉ default [] (doc_stemmedRevs Fixture.doc3) →
       doc_revs d' !! doc_rev d' = Some e).
Proof.
  eexists _, _, _. split; [vm_compute; reflexivity|].
  eapply (write_denormalizes_winner
            [Fixture.body0; Fixture.body0; Fixture.body_att] _ 10 _
            Fixture.doc3).
  vm_compute. reflexivity.
Defined.

(** The record of the example: the winner is [3-z], whose body is at
    location 2, and the attachment of that body is a stub in the clone. *)
Example write_doc3 :
  ∃ h' d',
    write [Fixture.body0; Fixture.body0; Fixture.body_att] 10 Fixture.doc3 =
      Some (h', 11, d') ∧
    doc_rev d' = "3-z" ∧
    doc_data d' = Some 2%nat ∧
    doc_deleted d' = JNum 0 ∧
    doc_seq d' = Some 11 ∧
    doc_revs d' !! "3-z" =
      Some {| e_data := 2%nat; e_deleted := JUndefined |} ∧
    doc_revs d' !! "1-x" = None ∧
    (h' !! 2%nat ≫= b_attachments) =
      Some {[ "pic" := {| att_stub := true; att_content_type := None;
                          att_data := None; att_length := None;
                          att_digest := Some "md5-digest-of-abc" |} ]}.
Proof.
  eexists _, _. split; [vm_compute; reflexivity|].
  repeat split; vm_compute; reflexivity.
Qed.

(** C8: for a document that carries a result of [merge], the record
    [write] hands to [put] has no [stemmedRevs], its [revs] has no entry
    for any revision the merge reported as stemmed, and its tree is the
    tree the merge returned: [write] removes no node, so the stemmed
    revisions are still there, marked ['missing'], as the merge of section
    4.1 leaves them. *)
Theorem write_drops_stemmed `{Deps}
    (h h' : Heap) (seq seq' : Z) (doc d' : Doc) (m : MergeResult) :
  doc_rev_tree doc = merged_tree m →
  doc_stemmedRevs doc = Some (merged_stemmedRevs m) →
  stem_keeps_missing m = true →
  write h seq doc = Some (h', seq', d') →
  doc_stemmedRevs d' = None ∧
  doc_rev_tree d' = merged_tree m ∧
  ∀ rev, rev ∈ merged_stemmedRevs m →
         doc_revs d' !! rev = None ∧
         marked_missing rev (doc_rev_tree d') = true.
Proof.
  intros Htree Hstem Hkeep Hw.
  destruct (write_spec _ _ _ _ _ _ Hw)
    as (e & body & _ & _ & _ & _ & _ & _ & Htree' & Hrevs & _ & _ & _ & Hnone).
  split; [done|]. split; [congruence|].
  intros rev Hin. split.
  - rewrite Hrevs, Hstem, lookup_drop_stemmed. by rewrite decide_True.
  - rewrite Htree', Htree. unfold stem_keeps_missing in Hkeep.
    rewrite forallb_forall in Hkeep. apply Hkeep.
    by apply list_elem_of_In.
Qed.

Lemma write_drops_stemmed_witness :
  merged_stemmedRevs Fixture.merged3 = ["1-x"] ∧
  ∃ h' seq' d',
    write [Fixture.body0; Fixture.body0; Fixture.body_att] 10 Fixture.doc3 =
      Some (h', seq', d') ∧
    doc_stemmedRevs d' = None ∧
    doc_rev_tree d' = merged_tree Fixture.merged3 ∧
    doc_revs d' !! "1-x" = None ∧
    marked_missing "1-x" (doc_rev_tree d') = true.
Proof.
  split; [vm_compute; reflexivity|].
  destruct (write [Fixture.body0; Fixture.body0; Fixture.body_att] 10
              Fixture.doc3) as [[[h' seq'] d']|] eqn:Hw;
    [|vm_compute in Hw; discriminate Hw].
  exists h', seq', d'. split; [reflexivity|].
  assert (Hkeep : stem_keeps_missing Fixture.merged3 = true)
    by (vm_compute; reflexivity).
  destruct (write_drops_stemmed _ _ _ _ Fixture.doc3 _ Fixture.merged3
              eq_refl eq_refl Hkeep Hw) as (Hnone & Htree & Hall).
  split; [exact Hnone|]. split; [exact Htree|].
  apply Hall. vm_compute. by left.
Defined.

(** ** Sequence numbers *)

Lemma slot_js_assign_eq (l : list (option Result)) (i : nat) (x : Result) :
  slot (js_assign l i x) i = Some x.
Proof.
  unfold slot, js_assign. destruct (decide (i < length l)%nat).
  - by rewrite list_lookup_insert_eq.
  - rewrite lookup_app_r by lia. rewrite lookup_app_r;
      rewrite length_replicate; [|lia].
    by rewrite Nat.sub_diag.
Qed.

Lemma slot_js_assign_ne (l : list (option Result)) (i j : nat) (x : Result) :
  i ≠ j → slot (js_assign l i x) j = slot l j.
Proof.
  intros Hne. unfold slot, js_assign. destruct (decide (i < length l)%nat).
  - by rewrite list_lookup_insert_ne.
  - destruct (decide (j < length l)%nat) as [Hj|Hj].
    + by rewrite lookup_app_l.
    + rewrite (lookup_ge_None_2 l j) by lia.
      rewrite lookup_app_r by lia.
      destruct (decide (j - length l < i - length l)%nat).
      * rewrite lookup_app_l by (rewrite length_replicate; lia).
        rewrite lookup_replicate_2; [done|lia].
      * rewrite lookup_app_r by (rewrite length_replicate; lia).
        rewrite length_replicate.
        rewrite lookup_ge_None_2; [done|simpl; lia].
Qed.

Lemma numbered_weaken (i i' : nat) (s : Z) (puts : list (nat * Doc * Heap)) :
  numbered i s puts → (i' ≤ i)%nat → numbered i' s puts.
Proof. intros Hn Hle. destruct Hn; constructor; try done. lia. Qed.

Section Sequence.
Context `{Deps}.
Variable opts : Opts.
Variable revsLimit : Z.

(** An iteration either writes nothing and leaves the counter alone, or
    writes one record that takes the next value of the counter and fills
    its slot with a success. *)
Lemma processDoc_step (st st' : State) (i : nat) (doc : Doc) :
  processDoc opts revsLimit st i doc = Some st' →
  (st_puts st' = st_puts st ∧ st_seq st' = st_seq st ∧
   ∀ j, j ≠ i → slot (st_results st') j = slot (st_results st) j) ∨
  (∃ d h, st_puts st' = (st_puts st ++ [(i, d, h)])%list ∧
          st_seq st' = st_seq st + 1 ∧
          doc_seq d = Some (st_seq st + 1) ∧
          st_results st' =
            js_assign (st_results st) i (ROk (doc_id d) (doc_rev d))).
Proof.
  unfold processDoc.
  destruct (resolve opts revsLimit st doc) as [[[[h doc'] oldDocs] newDoc]|];
    simpl; [|done].
  assert (Hrej : ∀ e, let st1 := rejected st h oldDocs i e in
    st_puts st1 = st_puts st ∧ st_seq st1 = st_seq st ∧
    ∀ j, j ≠ i → slot (st_results st1) j = slot (st_results st) j).
  { intros e. simpl. repeat split. intros j Hj. by apply slot_js_assign_ne. }
  destruct newDoc as [|e|d].
  - intros [= <-]. by left.
  - destruct (if new_edits opts then rootIsMissing doc' else Some false)
      as [[|]|]; simpl; [| |done]; intros [= <-]; left; apply Hrej.
  - destruct (if new_edits opts then rootIsMissing doc' else Some false)
      as [[|]|]; simpl; [| |done].
    + intros [= <-]. left. apply Hrej.
    + destruct (write h (st_seq st) d) as [[[h' seq'] d']|] eqn:Hw; [|done].
      intros [= <-]. right. exists d', h'. simpl.
      destruct (write_spec _ _ _ _ _ _ Hw)
        as (_ & _ & _ & _ & _ & -> & _ & _ & _ & _ & _ & _ & Hseq & _).
      done.
Qed.

Lemma processDocs_numbered (docs : list Doc) (i : nat) (st : State) :
  ∃ new,
    st_puts (processDocs opts revsLimit i docs st) =
      (st_puts st ++ new)%list ∧
    numbered i (st_seq st) new ∧
    st_seq (processDocs opts revsLimit i docs st) =
      st_seq st + Z.of_nat (length new) ∧
    (∀ j d h, (j, d, h) ∈ new →
       slot (st_results (processDocs opts revsLimit i docs st)) j =
         Some (ROk (doc_id d) (doc_rev d))) ∧
    (∀ j, (j < i)%nat →
       slot (st_results (processDocs opts revsLimit i docs st)) j =
         slot (st_results st) j).
Proof.
  revert i st. induction docs as [|doc docs IH]; intros i st; simpl.
  - exists []. rewrite app_nil_r. repeat split; try done.
    + constructor.
    + simpl. lia.
    + intros j d h Hin. by apply not_elem_of_nil in Hin.
  - destruct (processDoc opts revsLimit st i doc) as [st'|] eqn:Hstep.
    2: { exists []. rewrite app_nil_r. repeat split; try done.
         - constructor.
         - simpl. lia.
         - intros j d h Hin. by apply not_elem_of_nil in Hin. }
    destruct (IH (S i) st') as (new & Hputs & Hnum & Hseq & Hok & Hold).
    destruct (processDoc_step _ _ _ _ Hstep)
      as [(Hp & Hs & Hr)|(d & h & Hp & Hs & Hd & Hr)].
    + exists new. rewrite Hputs, Hp, Hseq, Hs. repeat split; try done.
      * rewrite Hs in Hnum. by apply (numbered_weaken (S i)); [|lia].
      * intros j Hj. rewrite Hold by lia. apply Hr. lia.
    + exists ((i, d, h) :: new). rewrite Hputs, Hp, Hseq, Hs.
      repeat split.
      * by rewrite <- app_assoc.
      * rewrite Hs in Hnum. by constructor.
      * simpl length. lia.
      * intros j d0 h0 [[= -> -> ->]|Hin]%elem_of_cons.
        -- rewrite Hold by lia. rewrite Hr. apply slot_js_assign_eq.
        -- by apply (Hok j d0 h0).
      * intros j Hj. rewrite Hold by lia. rewrite Hr.
        apply slot_js_assign_ne. lia.
Qed.

End Sequence.

Lemma numbered_lookup (i : nat) (s : Z) (puts : list (nat * Doc * Heap))
    (k j : nat) (d : Doc) (h : Heap) :
  numbered i s puts → puts !! k = Some (j, d, h) →
  (i + k ≤ j)%nat ∧ doc_seq d = Some (s + Z.of_nat k + 1).
Proof.
  intros Hnum. revert k. induction Hnum as [|i s j' d' h' rest Hle Hd Hn IH];
    intros k Hk; [done|].
  destruct k as [|k]; simpl in Hk.
  - injection Hk as -> -> ->. split; [lia|]. rewrite Hd. f_equal. lia.
  - destruct (IH k Hk) as [Hj Hs]. split; [lia|]. rewrite Hs. f_equal. lia.
Qed.

Lemma numbered_drop (i : nat) (s : Z) (puts : list (nat * Doc * Heap))
    (k j : nat) (d : Doc) (h : Heap) :
  numbered i s puts → puts !! k = Some (j, d, h) →
  numbered (S j) (s + Z.of_nat k + 1) (drop (S k) puts).
Proof.
  intros Hnum. revert k j d h.
  induction Hnum as [|i s j' d' h' rest Hle Hd Hn IH];
    intros k j d h Hk; [done|].
  destruct k as [|k]; simpl in Hk.
  - injection Hk as -> -> ->. simpl. rewrite drop_0.
    by replace (s + Z.of_nat 0 + 1) with (s + 1) by lia.
  - change (drop (S (S k)) ((j', d', h') :: rest)) with (drop (S k) rest).
    replace (s + Z.of_nat (S k) + 1) with (s + 1 + Z.of_nat k + 1) by lia.
    by eapply IH.
Qed.

(** The state a completed call ends in is the state [processDocs] reaches
    from empty [results], the counter of the database and some heap and
    prior records (over no document when the promise chain stopped). *)
Lemma bulkDocs_final `{Deps}
    (store : gmap string Doc) (h0 : Heap) (api : MetaData) (opts : Opts)
    (req : list Body) (st : State) :
  run_final (bulkDocs store h0 api opts req) = Some st →
  ∃ docs h oldDocs,
    st = processDocs opts (revsLimit_of api) 0 docs
           (state_at h oldDocs (md_seq api)).
Proof.
  unfold bulkDocs.
  destruct (parse_loop opts h0 req) as [err|[docs h1]]; [done|].
  destruct (preProcessAttachments h1 docs) as [h2|], docs as [|doc docs];
    cbn -[processDocs]; intros [= <-].
  - by exists [], h1, ∅.
  - by eexists (doc :: docs), h2, _.
  - by exists [], h1, ∅.
  - by exists [], h1, ∅.
Qed.

(** C5: when a call completes, the [k]-th record it wrote carries the
    [k]-th value after the counter the call started with, the records were
    written in the order of their inputs, the counter ends at the last
    value handed out, and the slot of each written document is its
    success.  So the sequence numbers of the accepted documents of a batch
    increase strictly in input order and none is used twice. *)
Theorem bulkDocs_seq_increasing `{Deps}
    (store : gmap string Doc) (h0 : Heap) (api : MetaData) (opts : Opts)
    (req : list Body) (st : State) :
  run_final (bulkDocs store h0 api opts req) = Some st →
  (∀ k i d h, st_puts st !! k = Some (i, d, h) →
     doc_seq d = Some (md_seq api + Z.of_nat k + 1) ∧
     slot (st_results st) i = Some (ROk (doc_id d) (doc_rev d))) ∧
  (∀ k1 k2 i1 d1 h1 i2 d2 h2,
     (k1 < k2)%nat →
     st_puts st !! k1 = Some (i1, d1, h1) →
     st_puts st !! k2 = Some (i2, d2, h2) →
     (i1 < i2)%nat ∧
     ∃ s1 s2, doc_seq d1 = Some s1 ∧ doc_seq d2 = Some s2 ∧ s1 < s2) ∧
  st_seq st = md_seq api + Z.of_nat (length (st_puts st)).
Proof.
  intros Hrun.
  assert (Hnum : numbered 0 (md_seq api) (st_puts st) ∧
                 st_seq st = md_seq api + Z.of_nat (length (st_puts st)) ∧
                 ∀ j d h, (j, d, h) ∈ st_puts st →
                   slot (st_results st) j = Some (ROk (doc_id d) (doc_rev d))).
  { destruct (bulkDocs_final _ _ _ _ _ _ Hrun) as (docs & h & oldDocs & ->).
    destruct (processDocs_numbered opts (revsLimit_of api) docs 0
                (state_at h oldDocs (md_seq api)))
      as (new & Hputs & Hn & Hseq & Hok & _).
    simpl in Hputs, Hn, Hseq. rewrite Hputs, Hseq.
    by repeat split. }
  destruct Hnum as (Hnum & Hseq & Hok).
  split; [|split; [|done]].
  - intros k i d h Hk. split.
    + by destruct (numbered_lookup _ _ _ _ _ _ _ Hnum Hk).
    + apply (Hok i d h). by eapply list_elem_of_lookup_2.
  - intros k1 k2 i1 d1 h1 i2 d2 h2 Hlt Hk1 Hk2.
    destruct (numbered_lookup _ _ _ _ _ _ _ Hnum Hk1) as [Hi1 Hs1].
    destruct (numbered_lookup _ _ _ _ _ _ _ Hnum Hk2) as [Hi2 Hs2].
    pose proof (numbered_drop _ _ _ _ _ _ _ Hnum Hk1) as Hsuf.
    assert (Hk2' : drop (S k1) (st_puts st) !! (k2 - S k1)%nat
                   = Some (i2, d2, h2)).
    { rewrite lookup_drop. by replace (S k1 + (k2 - S k1))%nat with k2 by lia. }
    destruct (numbered_lookup _ _ _ _ _ _ _ Hsuf Hk2') as [Hi _].
    split; [lia|]. eexists _, _. repeat split; [done..|]. lia.
Qed.

Lemma bulkDocs_seq_increasing_witness :
  ∃ st,
    run_final (bulkDocs ∅ [] Fixture.api7 Fixture.replication Fixture.batch4)
      = Some st ∧
    (∀ k i d h, st_puts st !! k = Some (i, d, h) →
       doc_seq d = Some (7 + Z.of_nat k + 1) ∧
       slot (st_results st) i = Some (ROk (doc_id d) (doc_rev d))) ∧
    (∀ k1 k2 i1 d1 h1 i2 d2 h2,
       (k1 < k2)%nat →
       st_puts st !! k1 = Some (i1, d1, h1) →
       st_puts st !! k2 = Some (i2, d2, h2) →
       (i1 < i2)%nat ∧
       ∃ s1 s2, doc_seq d1 = Some s1 ∧ doc_seq d2 = Some s2 ∧ s1 < s2) ∧
    st_seq st = 7 + Z.of_nat (length (st_puts st)).
Proof.
  eexists. split; [vm_compute; reflexivity|].
  apply (bulkDocs_seq_increasing ∅ [] Fixture.api7 Fixture.replication
           Fixture.batch4).
  vm_compute. reflexivity.
Defined.

(** The four records of the example, by input index, with their
    sequence numbers. *)
Example bulkDocs_batch4_seqs :
  (fun st => (fun p => (p.1.1, doc_id p.1.2, doc_seq p.1.2)) <$> st_puts st)
    <$> run_final (bulkDocs ∅ [] Fixture.api7 Fixture.replication
                     Fixture.batch4) =
    Some [(0%nat, "a", Some 8); (1%nat, "a", Some 9); (2%nat, "b", Some 10);
          (3%nat, "a", Some 11)].
Proof. vm_compute. reflexivity. Qed.

(** ** Where the stored records of the examples come from *)

(** Each record the examples start from is what an earlier call leaves in
    an empty store. *)
Example deleted_doc_is_stored :
  committed ∅ []
    (bulkDocs ∅ [] Fixture.api0 Fixture.edits
       [Fixture.raw "a" None [("_uuid", "x"); ("_deleted", "true")]]) =
    ({[ "a" := Fixture.deleted_doc ]}, [Fixture.body0]).
Proof. vm_compute. reflexivity. Qed.

Example stored_doc_is_stored :
  committed ∅ []
    (bulkDocs ∅ [] Fixture.api0 Fixture.replication
       [Fixture.raw "a" (Some "1-x") []]) =
    ({[ "a" := Fixture.stored_doc ]}, [Fixture.body0]).
Proof. vm_compute. reflexivity. Qed.

Example replicated_deletion_is_stored :
  committed ∅ []
    (bulkDocs ∅ [] Fixture.api0 Fixture.replication
       [Fixture.raw "a" (Some "2-b")
          [("_ancestor", "a0"); ("_deleted", "true")]]) =
    ({[ "a" := Fixture.replicated_deletion ]}, [Fixture.body0]).
Proof. vm_compute. reflexivity. Qed.

(** ** Every record handed to [put] comes out of [write] *)

Section Puts.
Context `{Deps}.
Variable opts : Opts.
Variable revsLimit : Z.

Lemma update_accepted (h : Heap) (doc oldDoc d : Doc) (out : UpdateOutcome) :
  update opts revsLimit h doc oldDoc = Some out →
  u_result out = Accepted d → carries_merge revsLimit d.
Proof.
  unfold update.
  destruct (decide (is_Some (doc_revs oldDoc !! doc_rev doc))).
  { by intros [= <-]. }
  destruct (if reattaches opts doc oldDoc then _ else _) as [[doc1 h1]|];
    simpl; [|done].
  destruct (head (doc_rev_tree doc1)) as [path|]; simpl; [|done].
  intros [= <-]. simpl. destruct (inConflict _ _ _ _); [done|].
  intros [= <-]. by exists (doc_rev_tree oldDoc), path.
Qed.

Lemma resolve_accepted (st : State) (doc doc' d : Doc) (h : Heap)
    (oldDocs : gmap string Doc) :
  resolve opts revsLimit st doc = Some (h, doc', oldDocs, Accepted d) →
  carries_merge revsLimit d.
Proof.
  unfold resolve.
  destruct (st_oldDocs st !! doc_id doc) as [oldDoc|].
  - destruct (update opts revsLimit (st_heap st) doc oldDoc) as [out|] eqn:Hup;
      simpl; [|done].
    intros [= _ _ _ Hr]. by eapply update_accepted.
  - destruct (inherited (doc_id doc)); [done|].
    destruct (was_delete opts); [done|].
    destruct (head (doc_rev_tree doc)) as [path|]; simpl; [|done].
    intros [= _ _ _ <-]. by exists [], path.
Qed.

Lemma processDoc_puts_written (st st' : State) (i : nat) (doc : Doc) :
  processDoc opts revsLimit st i doc = Some st' →
  Forall (written_by_write revsLimit) (st_puts st) →
  Forall (written_by_write revsLimit) (st_puts st').
Proof.
  intros Hstep Hall. unfold processDoc in Hstep.
  destruct (resolve opts revsLimit st doc) as [[[[h doc'] oldDocs] newDoc]|]
    eqn:Hres; simpl in Hstep; [|done].
  destruct newDoc as [|e|d].
  - by injection Hstep as <-.
  - destruct (if new_edits opts then rootIsMissing doc' else Some false)
      as [[|]|]; simpl in Hstep; [| |done]; by injection Hstep as <-.
  - destruct (if new_edits opts then rootIsMissing doc' else Some false)
      as [[|]|]; simpl in Hstep; [| |done].
    + by injection Hstep as <-.
    + destruct (write h (st_seq st) d) as [[[h' seq'] d']|] eqn:Hw; [|done].
      injection Hstep as <-. simpl. apply Forall_app. split; [done|].
      constructor; [|done]. exists h, (st_seq st), seq', d.
      split; [by eapply resolve_accepted|done].
Qed.

Lemma processDocs_puts_written (docs : list Doc) (i : nat) (st : State) :
  Forall (written_by_write revsLimit) (st_puts st) →
  Forall (written_by_write revsLimit)
    (st_puts (processDocs opts revsLimit i docs st)).
Proof.
  revert i st. induction docs as [|doc docs IH]; intros i st Hall; simpl.
  - done.
  - destruct (processDoc opts revsLimit st i doc) as [st'|] eqn:Hstep; [|done].
    apply IH. by eapply processDoc_puts_written.
Qed.

End Puts.

(** The records of C6 and C8 are all the records of a call: whatever a
    completed call handed to [put] is the outcome of [write] on a document
    that carries a result of [merge]. *)
Lemma bulkDocs_puts_written `{Deps}
    (store : gmap string Doc) (h0 : Heap) (api : MetaData) (opts : Opts)
    (req : list Body) (st : State) :
  run_final (bulkDocs store h0 api opts req) = Some st →
  Forall (written_by_write (revsLimit_of api)) (st_puts st).
Proof.
  intros Hrun.
  destruct (bulkDocs_final _ _ _ _ _ _ Hrun) as (docs & h & oldDocs & ->).
  apply processDocs_puts_written. constructor.
Qed.

(** * Further properties *)

(** ** [fetchExistingDocs] *)

Lemma fetch_fold_lookup (store acc : gmap string Doc) (docs : list Doc)
    (k : string) :
  keyed_by_id store →
  acc ⊆ store →
  foldl (fun oldDocs doc =>
           match store !! doc_id doc with
           | Some r => <[doc_id r := r]> oldDocs
           | None => oldDocs
           end) acc docs !! k =
    if decide (k ∈ doc_id <$> docs) then store !! k else acc !! k.
Proof.
  intros Hkey. revert acc. induction docs as [|doc docs IH]; intros acc Hsub.
  - cbn [foldl fmap list_fmap].
    destruct (decide (k ∈ [])) as [Hin|_]; [|done].
    by apply not_elem_of_nil in Hin.
  - cbn [foldl fmap list_fmap].
    destruct (store !! doc_id doc) as [r|] eqn:Hr.
    + pose proof (Hkey _ _ Hr) as Hid. simpl in Hid. rewrite Hid.
      rewrite IH by (by apply insert_subseteq_l).
      destruct (decide (k ∈ doc_id <$> docs)) as [Hin|Hnin].
      * rewrite decide_True; [done|by right].
      * destruct (decide (k = doc_id doc)) as [->|Hne].
        -- rewrite lookup_insert_eq, decide_True; [done|by left].
        -- rewrite lookup_insert_ne by done.
           rewrite decide_False; [done|].
           intros [?|?]%elem_of_cons; done.
    + rewrite IH by done.
      destruct (decide (k ∈ doc_id <$> docs)) as [Hin|Hnin].
      * rewrite decide_True; [done|by right].
      * destruct (decide (k = doc_id doc)) as [->|Hne].
        -- rewrite decide_True by by left. rewrite Hr.
           destruct (acc !! doc_id doc) as [d|] eqn:Hacc; [|done].
           by rewrite (lookup_weaken _ _ _ _ Hacc Hsub) in Hr.
        -- rewrite decide_False; [done|].
           intros [?|?]%elem_of_cons; done.
Qed.

(** X1: on a store that keeps its records under their ids,
    [fetchExistingDocs] resolves to exactly the stored records of the ids
    of the batch: under an id of the batch it has what the store has
    (nothing when the store has nothing), and under any other id it has
    nothing. *)
Theorem fetchExistingDocs_lookup
    (store : gmap string Doc) (docs : list Doc) (k : string) :
  keyed_by_id store →
  fetchExistingDocs store docs !! k =
    if decide (k ∈ doc_id <$> docs) then store !! k else None.
Proof.
  intros Hkey. unfold fetchExistingDocs.
  rewrite fetch_fold_lookup; [|done|apply map_empty_subseteq].
  by rewrite lookup_empty.
Qed.

Lemma fetchExistingDocs_lookup_witness :
  fetchExistingDocs
    {[ "a" := Fixture.stored_doc; "c" := Fixture.other_doc ]}
    [Fixture.stored_doc; Fixture.unknown_doc] !! "a" =
    (if decide ("a" ∈ doc_id <$> [Fixture.stored_doc; Fixture.unknown_doc])
     then ({[ "a" := Fixture.stored_doc; "c" := Fixture.other_doc ]}
             : gmap string Doc) !! "a"
     else None).
Proof.
  apply fetchExistingDocs_lookup.
  apply map_Forall_insert_2; [reflexivity|].
  apply map_Forall_insert_2; [reflexivity|].
  apply map_Forall_empty.
Defined.

(** ** The shape of [results] *)

Lemma js_assign_length {A} (l : list (option A)) (i : nat) (x : A) :
  length (js_assign l i x) = (length l `max` S i)%nat.
Proof.
  unfold js_assign. destruct (decide (i < length l)%nat).
  - rewrite length_insert. lia.
  - rewrite !length_app, length_replicate. simpl. lia.
Qed.

Section Shape.
Context `{Deps}.
Variable opts : Opts.
Variable revsLimit : Z.

Lemma processDoc_results_length (st st' : State) (i : nat) (doc : Doc) :
  processDoc opts revsLimit st i doc = Some st' →
  (length (st_results st) ≤ i)%nat →
  (length (st_results st') ≤ S i)%nat.
Proof.
  intros Hstep Hlen.
  destruct (processDoc_step _ _ _ _ _ _ Hstep)
    as [(_ & _ & _)|(d & h & _ & _ & _ & ->)].
  - unfold processDoc in Hstep.
    destruct (resolve opts revsLimit st doc)
      as [[[[h doc'] oldDocs] newDoc]|]; simpl in Hstep; [|done].
    destruct newDoc as [|e|d].
    + injection Hstep as <-. lia.
    + destruct (if new_edits opts then rootIsMissing doc' else Some false)
        as [[|]|]; simpl in Hstep; [| |done]; injection Hstep as <-;
        simpl; rewrite js_assign_length; lia.
    + destruct (if new_edits opts then rootIsMissing doc' else Some false)
        as [[|]|]; simpl in Hstep; [| |done].
      * injection Hstep as <-. simpl. rewrite js_assign_length. lia.
      * destruct (write h (st_seq st) d) as [[[h' seq'] d']|]; [|done].
        injection Hstep as <-. simpl. rewrite js_assign_length. lia.
  - rewrite js_assign_length. lia.
Qed.

Lemma processDocs_results_length (docs : list Doc) (i : nat) (st : State) :
  (length (st_results st) ≤ i)%nat →
  (length (st_results (processDocs opts revsLimit i docs st))
   ≤ i + length docs)%nat.
Proof.
  revert i st. induction docs as [|doc docs IH]; intros i st Hlen; simpl.
  - lia.
  - destruct (processDoc opts revsLimit st i doc) as [st'|] eqn:Hstep; [|lia].
    pose proof (processDoc_results_length _ _ _ _ Hstep Hlen).
    specialize (IH (S i) st'). lia.
Qed.

End Shape.

Lemma parse_loop_inl_or_length `{Deps} (opts : Opts) (h : Heap)
    (req : list Body) :
  match parse_loop opts h req with
  | inl _ => True
  | inr (docs, _) => length docs = length req
  end.
Proof.
  destruct (parse_loop opts h req) as [e|[docs h']] eqn:Hp; [done|].
  by eapply parse_loop_length.
Qed.

(** X2: the [results] a call delivers is never longer than the batch, and
    the call never fills a slot whose index is not one of the batch: the
    slots from the length of the batch on are empty. *)
Theorem results_within_batch `{Deps}
    (store : gmap string Doc) (h0 : Heap) (api : MetaData) (opts : Opts)
    (req : list Body) :
  (length (default [] (delivered (bulkDocs store h0 api opts req)))
   ≤ length req)%nat ∧
  ∀ i, (length req ≤ i)%nat →
       slot (default [] (delivered (bulkDocs store h0 api opts req))) i = None.
Proof.
  assert (Hlen : (length (default []
                    (delivered (bulkDocs store h0 api opts req)))
                  ≤ length req)%nat).
  { unfold delivered, bulkDocs.
    pose proof (parse_loop_inl_or_length opts h0 req) as Hp.
    destruct (parse_loop opts h0 req) as [err|[docs h1]]; simpl; [lia|].
    destruct (preProcessAttachments h1 docs) as [h2|], docs as [|doc docs];
      cbn -[processDocs]; try lia.
    rewrite <- Hp.
    apply (processDocs_results_length opts (revsLimit_of api)
             (doc :: docs) 0). simpl. lia. }
  split; [done|]. intros i Hi. unfold slot.
  rewrite lookup_ge_None_2; [done|lia].
Qed.

(** ** Replication mode *)

Section Replication.
Context `{Deps}.
Variable opts : Opts.
Variable revsLimit : Z.
Hypothesis replicating : new_edits opts = false.

Lemma update_never_rejects (h : Heap) (doc oldDoc : Doc)
    (out : UpdateOutcome) (e : PouchError) :
  update opts revsLimit h doc oldDoc = Some out → u_result out ≠ Rejected e.
Proof.
  unfold update.
  destruct (decide (is_Some (doc_revs oldDoc !! doc_rev doc))).
  { by intros [= <-]. }
  destruct (if reattaches opts doc oldDoc then _ else _) as [[doc1 h1]|];
    simpl; [|done].
  destruct (head (doc_rev_tree doc1)) as [path|]; simpl; [|done].
  intros [= <-]. simpl. unfold inConflict. by rewrite replicating.
Qed.

Lemma processDoc_removal_error_only (st st' : State) (i : nat) (doc : Doc) :
  processDoc opts revsLimit st i doc = Some st' →
  Forall (removal_error_only opts) (st_results st) →
  Forall (removal_error_only opts) (st_results st').
Proof.
  unfold processDoc, resolve. rewrite replicating.
  destruct (st_oldDocs st !! doc_id doc) as [oldDoc|].
  - destruct (update opts revsLimit (st_heap st) doc oldDoc) as [out|] eqn:Hup;
      simpl; [|done].
    pose proof (fun e => update_never_rejects _ _ _ _ e Hup) as Hnr.
    destruct (u_result out) as [|e|d]; simpl.
    + by intros [= <-].
    + by destruct (Hnr e).
    + destruct (write _ _ d) as [[[h' seq'] d']|]; [|done].
      intros [= <-] Hall. simpl. by apply js_assign_Forall.
  - destruct (inherited (doc_id doc)); [done|].
    destruct (was_delete opts) eqn:Hdel; simpl.
    + intros [= <-] Hall. simpl. by apply js_assign_Forall.
    + destruct (head (doc_rev_tree doc)) as [path|]; simpl; [|done].
      destruct (write _ _ _) as [[[h' seq'] d']|]; [|done].
      intros [= <-] Hall. simpl. by apply js_assign_Forall.
Qed.

Lemma processDocs_removal_error_only (docs : list Doc) (i : nat)
    (st : State) :
  Forall (removal_error_only opts) (st_results st) →
  Forall (removal_error_only opts)
    (st_results (processDocs opts revsLimit i docs st)).
Proof.
  revert i st. induction docs as [|doc docs IH]; intros i st Hall; simpl.
  - done.
  - destruct (processDoc opts revsLimit st i doc) as [st'|] eqn:Hstep; [|done].
    apply IH. by eapply processDoc_removal_error_only.
Qed.

End Replication.

(** X3: with [new_edits] off the conflict policy is never applied: no
    slot of the delivered [results] is a [REV_CONFLICT], whatever the trees
    and the deletion flags; the only error a slot can hold is the
    [MISSING_DOC] of a removal, and only when [was_delete] is present. *)
Theorem replication_never_conflicts `{Deps}
    (store : gmap string Doc) (h0 : Heap) (api : MetaData) (opts : Opts)
    (req : list Body) :
  new_edits opts = false →
  Forall (fun slot =>
            ∀ e, slot = Some (RError e) →
                 was_delete opts = true ∧
                 e = createError MISSING_DOC (Some "deleted"))
    (default [] (delivered (bulkDocs store h0 api opts req))).
Proof.
  intros Hrep. apply (Forall_impl (removal_error_only opts)).
  2: { intros slot Hs e ->. exact Hs. }
  unfold delivered, bulkDocs.
  destruct (parse_loop opts h0 req) as [err|[docs h1]]; simpl; [done|].
  destruct (preProcessAttachments h1 docs) as [h2|], docs as [|doc docs];
    cbn -[processDocs]; try done.
  by apply processDocs_removal_error_only.
Qed.

Lemma replication_never_conflicts_witness :
  Forall (fun slot =>
            ∀ e, slot = Some (RError e) →
                 was_delete Fixture.replication = true ∧
                 e = createError MISSING_DOC (Some "deleted"))
    (default []
       (delivered
          (bulkDocs {[ "a" := Fixture.deleted_doc ]} [Fixture.body0]
             Fixture.api0 Fixture.replication
             [Fixture.raw "a" (Some "2-y") [("_deleted", "true")];
              Fixture.raw "a" (Some "2-w") []]))).
Proof. apply replication_never_conflicts. reflexivity. Defined.

(** ** What a rejected update leaves behind *)

(** X4: [update] writes the incoming revision into the [revs] of the
    prior record before it applies the conflict policy.  So when an update
    (one that is not re-attached) is rejected, its slot is [REV_CONFLICT],
    and every later document of the batch with the same id and revision is
    skipped as already recorded: its iteration changes nothing and fills
    no slot. *)
Theorem rejected_revision_is_remembered `{Deps}
    (opts : Opts) (revsLimit : Z) (st st1 : State) (i : nat)
    (doc oldDoc : Doc) :
  st_oldDocs st !! doc_id doc = Some oldDoc →
  doc_revs oldDoc !! doc_rev doc = None →
  is_Some (doc_revs doc !! doc_rev doc) →
  reattaches opts doc oldDoc = false →
  processDoc opts revsLimit st i doc = Some st1 →
  st_puts st1 = st_puts st →
  slot (st_results st1) i = Some (RError (createError REV_CONFLICT None)) ∧
  ∀ j doc2, doc_id doc2 = doc_id doc → doc_rev doc2 = doc_rev doc →
            processDoc opts revsLimit st1 j doc2 = Some st1.
Proof.
  intros Hold Hnew [e He] Hre Hstep Hputs.
  unfold processDoc, resolve in Hstep. rewrite Hold in Hstep.
  unfold update in Hstep.
  destruct (decide (is_Some (doc_revs oldDoc !! doc_rev doc))) as [[? ?]|_];
    [congruence|].
  rewrite Hre in Hstep. simpl in Hstep.
  destruct (head (doc_rev_tree doc)) as [path|]; simpl in Hstep; [|done].
  rewrite He in Hstep.
  set (revs := <[doc_rev doc := e]> (doc_revs oldDoc)) in *.
  set (oldDocs := <[doc_id doc := set_revs oldDoc revs]> (st_oldDocs st)) in *.
  assert (Hskip : ∀ e0 j doc2,
            doc_id doc2 = doc_id doc → doc_rev doc2 = doc_rev doc →
            processDoc opts revsLimit
              (rejected st (st_heap st) oldDocs i e0) j doc2 =
              Some (rejected st (st_heap st) oldDocs i e0)).
  { intros e0 j doc2 Hid Hrev.
    apply (processDoc_skips_recorded _ _ _ _ _ (set_revs oldDoc revs)).
    - simpl. unfold oldDocs. rewrite Hid. apply lookup_insert_eq.
    - simpl. unfold revs. rewrite Hrev, lookup_insert_eq. by eexists. }
  destruct (inConflict _ _ _ _).
  - destruct (if new_edits opts then _ else _) as [[|]|]; simpl in Hstep;
      [| |done]; injection Hstep as <-;
      (split; [apply slot_js_assign_eq|apply Hskip]).
  - destruct (if new_edits opts then _ else _) as [[|]|]; simpl in Hstep;
      [| |done].
    + injection Hstep as <-. split; [apply slot_js_assign_eq|apply Hskip].
    + destruct (write _ _ _) as [[[h' seq'] d']|]; [|done].
      injection Hstep as <-. simpl in Hputs.
      apply (f_equal length) in Hputs. rewrite length_app in Hputs.
      simpl in Hputs. lia.
Qed.

Lemma rejected_revision_is_remembered_witness :
  let '(doc, h) :=
    Fixture.incoming true [Fixture.body0]
      (Fixture.raw "a" (Some "1-zz") [("_uuid", "y")]) in
  ∃ st1,
    processDoc Fixture.edits 1000
      (state_at h {[ "a" := Fixture.stored_doc ]} 0) 0 doc = Some st1 ∧
    slot (st_results st1) 0 = Some (RError (createError REV_CONFLICT None)) ∧
    ∀ j doc2, doc_id doc2 = doc_id doc → doc_rev doc2 = doc_rev doc →
              processDoc Fixture.edits 1000 st1 j doc2 = Some st1.
Proof.
  eexists. split; [vm_compute; reflexivity|].
  eapply (rejected_revision_is_remembered Fixture.edits 1000
            (state_at [Fixture.body0; Fixture.body0]
               {[ "a" := Fixture.stored_doc ]} 0)
            _ 0
            (Fixture.incoming true [Fixture.body0]
               (Fixture.raw "a" (Some "1-zz") [("_uuid", "y")])).1
            Fixture.stored_doc).
  - vm_compute. reflexivity.
  - vm_compute. reflexivity.
  - eexists. vm_compute. reflexivity.
  - vm_compute. reflexivity.
  - vm_compute. reflexivity.
  - vm_compute. reflexivity.
Defined.

(** The same through the whole call: the edit is submitted twice in one
    batch; the first slot is the conflict and there is no second slot. *)
Example bulkDocs_rejected_twice :
  delivered
    (bulkDocs {[ "a" := Fixture.stored_doc ]} [Fixture.body0]
       Fixture.api0 Fixture.edits
       [Fixture.raw "a" (Some "1-zz") [("_uuid", "y")];
        Fixture.raw "a" (Some "1-zz") [("_uuid", "y")]]) =
    Some [Some (RError (createError REV_CONFLICT None))].
Proof. vm_compute. reflexivity. Qed.

(** ** Attachments: from [write] to [getAttachment] *)



(** Through the whole call: a new document sent with a base64
    attachment, then the attachment read back from the store. *)
Example bulkDocs_then_getAttachment :
  getAttachment
    (committed ∅ []
       (bulkDocs ∅ [] Fixture.api0 Fixture.edits
          [Fixture.good_attachment])).1 "a" "pic" =
    Some {| cb_err := None;
            cb_data :=
              Some (DataBlob {| blob_content := "aGVsbG8=";
                                blob_type := Some "text/plain" |}) |}.
Proof. vm_compute. reflexivity. Qed.

(** ** What an accepted update keeps of the history *)

(** X6: when an update (one that is not re-attached) is accepted, the
    record written keeps the id, takes the tree of the merge, and its
    [revs] is the [revs] of the prior record plus the entry of the incoming
    revision, minus the revisions the merge reported as stemmed: no other
    body of the history is dropped or replaced.  The record also becomes
    the prior record the later documents of the batch see. *)
Theorem accepted_update_keeps_history `{Deps}
    (opts : Opts) (revsLimit : Z) (st st' : State) (i : nat)
    (doc oldDoc d' : Doc) (h' : Heap) (e : RevEntry) (path : Root) :
  st_oldDocs st !! doc_id doc = Some oldDoc →
  doc_revs oldDoc !! doc_rev doc = None →
  doc_revs doc !! doc_rev doc = Some e →
  reattaches opts doc oldDoc = false →
  head (doc_rev_tree doc) = Some path →
  processDoc opts revsLimit st i doc = Some st' →
  st_puts st' = (st_puts st ++ [(i, d', h')])%list →
  doc_id d' = doc_id doc ∧
  doc_rev_tree d' =
    merged_tree (merge (doc_rev_tree oldDoc) path revsLimit) ∧
  (∀ r, doc_revs d' !! r =
        if decide (r ∈ merged_stemmedRevs
                         (merge (doc_rev_tree oldDoc) path revsLimit))
        then None
        else if decide (r = doc_rev doc) then Some e
        else doc_revs oldDoc !! r) ∧
  st_oldDocs st' !! doc_id doc = Some d'.
Proof.
  intros Hold Hnew He Hre Hpath Hstep Hputs.
  unfold processDoc, resolve in Hstep. rewrite Hold in Hstep.
  unfold update in Hstep.
  destruct (decide (is_Some (doc_revs oldDoc !! doc_rev doc))) as [[? ?]|_];
    [congruence|].
  rewrite Hre in Hstep. simpl in Hstep. rewrite Hpath in Hstep.
  simpl in Hstep. rewrite He in Hstep.
  assert (Hno : ∀ l (x : nat * Doc * Heap), l ≠ (l ++ [x])%list).
  { intros l x Heq. apply (f_equal length) in Heq.
    rewrite length_app in Heq. simpl in Heq. lia. }
  destruct (inConflict _ _ _ _).
  - destruct (if new_edits opts then _ else _) as [[|]|]; simpl in Hstep;
      [| |done]; injection Hstep as <-; simpl in Hputs;
      by apply Hno in Hputs.
  - destruct (if new_edits opts then _ else _) as [[|]|]; simpl in Hstep;
      [| |done].
    + injection Hstep as <-. simpl in Hputs. by apply Hno in Hputs.
    + destruct (write _ _ _) as [[[h1 seq1] d1]|] eqn:Hw; [|done].
      injection Hstep as <-. simpl in Hputs.
      apply app_inj_tail in Hputs as [_ [= -> ->]].
      destruct (write_spec _ _ _ _ _ _ Hw)
        as (_ & _ & _ & _ & _ & _ & Hid & _ & Htree & Hrevs & _).
      simpl in Hid, Htree.
      unfold set_revs, set_merged in Hrevs.
      cbn [doc_revs doc_stemmedRevs] in Hrevs.
      split; [done|]. split; [done|]. split.
      * intros r. rewrite Hrevs, lookup_drop_stemmed.
        destruct (decide (r ∈ _)); [done|].
        destruct (decide (r = doc_rev doc)) as [->|Hne].
        -- apply lookup_insert_eq.
        -- by apply lookup_insert_ne.
      * simpl. unfold written. rewrite Hid. apply lookup_insert_eq.
Qed.

Lemma accepted_update_keeps_history_witness :
  let '(doc, h) :=
    Fixture.incoming false [Fixture.body0]
      (Fixture.raw "a" (Some "2-y") [("_ancestor", "x")]) in
  let m := merge (doc_rev_tree Fixture.stored_doc)
             {| pos := 1;
                ids := mkNode "x" (Fixture.opt "missing" JUndefined)
                         [mkNode "y" (Fixture.opt "available" JUndefined) []] |}
             1000 in
  ∃ st' d' h',
    processDoc Fixture.replication 1000
      (state_at h {[ "a" := Fixture.stored_doc ]} 5) 0 doc = Some st' ∧
    st_puts st' = [(0%nat, d', h')] ∧
    doc_id d' = "a" ∧
    doc_rev_tree d' = merged_tree m ∧
    (∀ r, doc_revs d' !! r =
          if decide (r ∈ merged_stemmedRevs m) then None
          else if decide (r = "2-y")
               then Some {| e_data := 1%nat; e_deleted := JUndefined |}
               else doc_revs Fixture.stored_doc !! r) ∧
    st_oldDocs st' !! "a" = Some d'.
Proof.
  eexists _, _, _. split; [vm_compute; reflexivity|].
  split; [reflexivity|].
  eapply (accepted_update_keeps_history Fixture.replication 1000
            (state_at [Fixture.body0; Fixture.body0]
               {[ "a" := Fixture.stored_doc ]} 5)
            _ 0
            (Fixture.incoming false [Fixture.body0]
               (Fixture.raw "a" (Some "2-y") [("_ancestor", "x")])).1
            Fixture.stored_doc).
  - vm_compute. reflexivity.
  - vm_compute. reflexivity.
  - vm_compute. reflexivity.
  - vm_compute. reflexivity.
  - vm_compute. reflexivity.
  - vm_compute. reflexivity.
  - reflexivity.
Defined.

(** ** The documents the parse loop builds *)

Section Parsed.
Context `{Deps}.
Variable opts : Opts.

Lemma alloc_revs_prefix (h : Heap) (l : list (string * (Body * jsval))) :
  h `prefix_of` (alloc_revs h l).2.
Proof.
  induction l as [|[r [b d]] l IH]; simpl; [done|].
  destruct (alloc_revs h l) as [m h1]. simpl in *.
  by apply prefix_app_r.
Qed.

Lemma convertDocFormat_heap (h : Heap) (r : ParseResult) :
  let '(doc, h') := convertDocFormat h r in
  h `prefix_of` h' ∧
  ∃ p, entry_loc doc = Some p ∧ (length h ≤ p)%nat ∧ S p = length h' ∧
       h' !! p = Some (data r).
Proof.
  unfold convertDocFormat.
  pose proof (alloc_revs_prefix h (default [] (m_revs (metadata r)))) as Hpre.
  destruct (alloc_revs h (default [] (m_revs (metadata r)))) as [revs h1].
  simpl in *. split; [by apply prefix_app_r|].
  exists (length h1). unfold entry_loc. simpl. rewrite lookup_insert_eq.
  repeat split.
  - by apply prefix_length.
  - rewrite length_app. simpl. lia.
  - rewrite lookup_app_r by lia. by rewrite Nat.sub_diag.
Qed.

Lemma separated_weaken (n n' : nat) (docs : list Doc) :
  separated n docs → (n' ≤ n)%nat → separated n' docs.
Proof. intros Hs Hle. destruct Hs; econstructor; eauto. lia. Qed.

(** The invariant of the loop: the heap grows, the documents stand for
    the raw documents in order, each with the body the parser returned,
    and no two of them share a body. *)
Lemma parse_loop_inv (h h' : Heap) (req : list Body) (docs : list Doc) :
  parse_loop opts h req = inr (docs, h') →
  h `prefix_of` h' ∧
  separated (length h) docs ∧
  Forall (fun doc => ∃ p, entry_loc doc = Some p ∧ (p < length h')%nat) docs ∧
  Forall2 (fun raw doc =>
             ∃ r, parseDoc raw (new_edits opts) = inr r ∧
                  doc_id doc = m_id (metadata r) ∧
                  doc_rev doc = m_rev (metadata r) ∧
                  doc_rev_tree doc = m_rev_tree (metadata r) ∧
                  doc_deleted doc = JUndefined ∧
                  doc_body h' doc = Some (data r)) req docs.
Proof.
  revert h docs h'. induction req as [|raw req IH]; intros h docs h'; simpl.
  - intros [= <- <-]. split; [done|]. split; [constructor|].
    split; constructor.
  - destruct (parseDoc raw (new_edits opts)) as [err|r] eqn:Hr; [done|].
    pose proof (convertDocFormat_heap h r) as Hheap.
    pose proof (convertDocFormat_spec h r) as Hspec.
    destruct (convertDocFormat h r) as [doc h1].
    destruct Hheap as (Hpre & p & Hp & Hle & Hlen & Hbody).
    destruct Hspec as (Hdel & Hid & Hrev & Htree & _).
    destruct (parse_loop opts h1 req) as [err|[ds h2]] eqn:Hrest; [done|].
    intros [= <- <-].
    destruct (IH _ _ _ Hrest) as (Hpre' & Hsep & Hin & Hall).
    pose proof (prefix_length _ _ Hpre') as Hlen'.
    split; [by trans h1|]. split; [|split].
    + econstructor; [done..|]. by rewrite Hlen.
    + constructor; [|done]. exists p. split; [done|lia].
    + constructor; [|done]. exists r. repeat split; try done.
      unfold doc_body. unfold entry_loc in Hp.
      destruct (doc_revs doc !! doc_rev doc) as [e|]; [|done].
      injection Hp as <-. simpl.
      by eapply prefix_lookup_Some.
Qed.

(** The loop succeeds when every document parses. *)
Lemma parse_loop_all_ok (h : Heap) (req : list Body) :
  (∀ x, x ∈ req → ∃ r, parseDoc x (new_edits opts) = inr r) →
  ∃ docs h', parse_loop opts h req = inr (docs, h').
Proof.
  revert h. induction req as [|raw req IH]; intros h Hall; simpl.
  - by eexists _, _.
  - destruct (Hall raw) as [r Hr]; [by left|]. rewrite Hr.
    destruct (convertDocFormat h r) as [doc h1].
    destruct (IH h1) as (docs & h' & ->); [|by eexists _, _].
    intros x Hx. apply Hall. by right.
Qed.

End Parsed.

(** X7: when the parse loop goes through, it has built one document per
    raw document, in the order of the batch; the document at index [i] has
    the id, the revision and the tree the parser returned for the raw
    document at [i], no [deleted] property, and under its revision the
    body the parser returned, also after the bodies of the later documents
    were added; and every body that was in the heap before is still
    there. *)
Theorem parse_loop_converts_in_order `{Deps}
    (opts : Opts) (h h' : Heap) (req : list Body) (docs : list Doc) :
  parse_loop opts h req = inr (docs, h') →
  length docs = length req ∧
  (∀ l b, h !! l = Some b → h' !! l = Some b) ∧
  ∀ i raw, req !! i = Some raw →
    ∃ r doc,
      parseDoc raw (new_edits opts) = inr r ∧
      docs !! i = Some doc ∧
      doc_id doc = m_id (metadata r) ∧
      doc_rev doc = m_rev (metadata r) ∧
      doc_rev_tree doc = m_rev_tree (metadata r) ∧
      doc_deleted doc = JUndefined ∧
      doc_body h' doc = Some (data r).
Proof.
  intros Hp. destruct (parse_loop_inv _ _ _ _ _ Hp) as (Hpre & _ & _ & Hall).
  split; [by eapply parse_loop_length|]. split.
  - intros l b Hl. by eapply prefix_lookup_Some.
  - intros i raw Hi.
    destruct (Forall2_lookup_l _ _ _ _ _ Hall Hi) as (doc & Hd & r & Hr).
    exists r, doc. by destruct Hr as (? & ? & ? & ? & ? & ?).
Qed.

Lemma parse_loop_converts_in_order_witness :
  ∃ docs h',
    parse_loop Fixture.replication [Fixture.body0] Fixture.batch4 =
      inr (docs, h') ∧
    length docs = length Fixture.batch4 ∧
    (∀ l b, [Fixture.body0] !! l = Some b → h' !! l = Some b) ∧
    ∀ i raw, Fixture.batch4 !! i = Some raw →
      ∃ r doc,
        parseDoc raw (new_edits Fixture.replication) = inr r ∧
        docs !! i = Some doc ∧
        doc_id doc = m_id (metadata r) ∧
        doc_rev doc = m_rev (metadata r) ∧
        doc_rev_tree doc = m_rev_tree (metadata r) ∧
        doc_deleted doc = JUndefined ∧
        doc_body h' doc = Some (data r).
Proof.
  eexists _, _. split; [vm_compute; reflexivity|].
  apply (parse_loop_converts_in_order Fixture.replication [Fixture.body0]).
  vm_compute. reflexivity.
Defined.

(** ** Pre-processing of the attachments *)

Section Attachments.
Context `{Deps}.

Lemma preProcessAttachment_None (a : Attachment) :
  preProcessAttachment a = None ↔ unprocessable a = true.
Proof.
  unfold preProcessAttachment, unprocessable.
  destruct (att_stub a); simpl; [done|].
  by destruct (att_data a) as [[s|b]|].
Qed.


(** [preProcessDoc] rewrites the body of the document's own revision and
    nothing else of the heap. *)
Lemma preProcessDoc_frame (h h' : Heap) (doc : Doc) :
  preProcessDoc h doc = Some h' →
  length h' = length h ∧
  ∀ l, entry_loc doc ≠ Some l → h' !! l = h !! l.
Proof.
  unfold preProcessDoc, entry_loc.
  destruct (doc_revs doc !! doc_rev doc) as [e|]; simpl; [|done].
  destruct (h !! e_data e) as [body|]; simpl; [|done].
  destruct (b_attachments body) as [atts|].
  - destruct (decide _); [|done]. intros [= <-].
    split; [apply length_insert|].
    intros l Hl. apply list_lookup_insert_ne. congruence.
  - by intros [= <-].
Qed.

Lemma preProcessDoc_unprocessable (h : Heap) (doc : Doc) (body : Body)
    (atts : gmap string Attachment) (k : string) (a : Attachment) :
  doc_body h doc = Some body →
  b_attachments body = Some atts →
  atts !! k = Some a →
  unprocessable a = true →
  preProcessDoc h doc = None.
Proof.
  unfold doc_body, preProcessDoc. intros Hb Hatts Hk Hun.
  destruct (doc_revs doc !! doc_rev doc) as [e|]; simpl in *; [|done].
  rewrite Hb. simpl. rewrite Hatts.
  destruct (decide _) as [Hall|]; [|done].
  apply (map_Forall_lookup_1 _ _ _ _ Hall) in Hk.
  apply preProcessAttachment_None in Hun. rewrite Hun in Hk.
  by destruct Hk.
Qed.

Lemma separated_lookup (n i : nat) (docs : list Doc) (doc : Doc) :
  separated n docs → docs !! i = Some doc →
  ∃ q, entry_loc doc = Some q ∧ (n ≤ q)%nat.
Proof.
  intros Hs. revert i. induction Hs as [|n d ds p Hp Hle Hs IH];
    intros i Hi; [done|].
  destruct i as [|i]; simpl in Hi.
  - injection Hi as ->. by exists p.
  - destruct (IH i Hi) as (q & Hq & Hle'). exists q. split; [done|lia].
Qed.

Lemma preProcessAttachments_unprocessable (n i : nat) (h : Heap)
    (docs : list Doc) (doc : Doc) (body : Body)
    (atts : gmap string Attachment) (k : string) (a : Attachment) :
  separated n docs →
  docs !! i = Some doc →
  doc_body h doc = Some body →
  b_attachments body = Some atts →
  atts !! k = Some a →
  unprocessable a = true →
  preProcessAttachments h docs = None.
Proof.
  intros Hs. revert i h.
  induction Hs as [|n d ds p Hp Hle Hs IH]; intros i h Hi Hb Hatts Hk Hun;
    [done|].
  destruct i as [|i]; simpl in Hi; simpl.
  - injection Hi as ->.
    by rewrite (preProcessDoc_unprocessable h doc body atts k a).
  - destruct (preProcessDoc h d) as [h1|] eqn:Hd; simpl; [|done].
    destruct (preProcessDoc_frame _ _ _ Hd) as [_ Hframe].
    destruct (separated_lookup _ _ _ _ Hs Hi) as (q & Hq & Hlt).
    apply (IH i h1 Hi); try done.
    unfold doc_body in *. unfold entry_loc in Hq.
    destruct (doc_revs doc !! doc_rev doc) as [e|]; simpl in *; [|done].
    injection Hq as Hq. rewrite Hframe; [done|].
    rewrite Hp. intros [= Heq]. lia.
Qed.

End Attachments.



(** The attachment of the witness after the pre-processing. *)
Example preProcessDoc_good_attachment :
  let '(doc, h) := Fixture.incoming true [] Fixture.good_attachment in
  (preProcessDoc h doc ≫= fun h' => doc_body h' doc ≫= b_attachments) =
    Some {[ "pic" :=
              {| att_stub := false;
                 att_content_type := Some "text/plain";
                 att_data :=
                   Some (DataBlob {| blob_content := "aGVsbG8=";
                                     blob_type := Some "text/plain" |});
                 att_length := Some 8;
                 att_digest := Some "md5-digest-of-aGVsbG8=" |} ]}.
Proof. vm_compute. reflexivity. Qed.

(** X9: an attachment that is no stub and whose [data] is no string has
    no branch in [preProcessAttachment].  One such attachment anywhere in
    a batch that parses stops the call before any document is fetched or
    written: the transaction completes with no request on it, and the
    callback receives an empty [results]. *)
Theorem unprocessable_attachment_stops_the_call `{Deps}
    (store : gmap string Doc) (h0 : Heap) (api : MetaData) (opts : Opts)
    (req : list Body) (i : nat) (raw : Body) (r : ParseResult)
    (atts : gmap string Attachment) (k : string) (a : Attachment) :
  (∀ x, x ∈ req → ∃ r, parseDoc x (new_edits opts) = inr r) →
  req !! i = Some raw →
  parseDoc raw (new_edits opts) = inr r →
  b_attachments (data r) = Some atts →
  atts !! k = Some a →
  unprocessable a = true →
  ∃ h1,
    bulkDocs store h0 api opts req =
      {| run_events :=
           [EvTransaction; EvNotify (md_name api);
            EvCallback None (Some [])];
         run_final := Some (state_at h1 ∅ (md_seq api)) |}.
Proof.
  intros Hall Hi Hr Hatts Hk Hun.
  destruct (parse_loop_all_ok opts h0 req Hall) as (docs & h1 & Hp).
  destruct (parse_loop_inv _ _ _ _ _ Hp) as (_ & Hsep & _ & Hdocs).
  destruct (Forall2_lookup_l _ _ _ _ _ Hdocs Hi)
    as (doc & Hd & r' & Hr' & _ & _ & _ & _ & Hbody).
  assert (r' = r) as -> by congruence.
  exists h1. unfold bulkDocs. rewrite Hp.
  by rewrite (preProcessAttachments_unprocessable _ _ _ _ _ _ _ _ _
                Hsep Hd Hbody Hatts Hk Hun).
Qed.

Lemma unprocessable_attachment_stops_the_call_witness :
  ∃ h1,
    bulkDocs {[ "a" := Fixture.stored_doc ]} [Fixture.body0] Fixture.api0
      Fixture.edits
      [Fixture.raw "c" None [("_uuid", "x")]; Fixture.blob_attachment] =
      {| run_events :=
           [EvTransaction; EvNotify "db"; EvCallback None (Some [])];
         run_final := Some (state_at h1 ∅ 0) |}.
Proof.
  apply (unprocessable_attachment_stops_the_call _ _ Fixture.api0 _ _ 1
           Fixture.blob_attachment
           (Fixture.parsed true Fixture.blob_attachment)
           {[ "pic" := Fixture.pic_att ]} "pic" Fixture.pic_att).
  - intros x [->|[->|Hx%not_elem_of_nil]%elem_of_cons]%elem_of_cons;
      [| |done]; eexists; vm_compute; reflexivity.
  - reflexivity.
  - vm_compute. reflexivity.
  - reflexivity.
  - vm_compute. reflexivity.
  - reflexivity.
Defined.

(** ** Each iteration keeps to its own slot and its own record *)

(** X10: an iteration of [processDocs] that completes (and does not
    re-attach) assigns no slot of [results] but its own, and changes the
    prior record of no id but the id of its document: a rejection, a skip
    or a write of one document leaves the slots and the prior records of
    the other documents of the batch as they were. *)
Theorem processDoc_keeps_to_its_document `{Deps}
    (opts : Opts) (revsLimit : Z) (st st' : State) (i : nat) (doc : Doc) :
  (∀ oldDoc, st_oldDocs st !! doc_id doc = Some oldDoc →
             reattaches opts doc oldDoc = false) →
  processDoc opts revsLimit st i doc = Some st' →
  (∀ j, j ≠ i → slot (st_results st') j = slot (st_results st) j) ∧
  (∀ k, k ≠ doc_id doc → st_oldDocs st' !! k = st_oldDocs st !! k).
Proof.
  intros Hre Hstep. split.
  - intros j Hj.
    destruct (processDoc_step _ _ _ _ _ _ Hstep)
      as [(_ & _ & Hs)|(d & h & _ & _ & _ & ->)]; [by apply Hs|].
    by apply slot_js_assign_ne.
  - intros k Hk. unfold processDoc, resolve in Hstep.
    assert (Hwritten : ∀ h d oldDocs,
      doc_id d = doc_id doc →
      oldDocs !! k = st_oldDocs st !! k →
      match write h (st_seq st) d with
      | Some (h', seq', d') =>
          Some {| st_heap := h'; st_oldDocs := written doc d' oldDocs;
                  st_seq := seq';
                  st_results := js_assign (st_results st) i
                                  (ROk (doc_id d') (doc_rev d'));
                  st_puts := (st_puts st ++ [(i, d', h')])%list |}
      | None => None
      end = Some st' →
      st_oldDocs st' !! k = st_oldDocs st !! k).
    { intros h d oldDocs Hid Hsame.
      destruct (write h (st_seq st) d) as [[[h' seq'] d']|] eqn:Hw; [|done].
      intros [= <-]. simpl. unfold written.
      destruct (write_spec _ _ _ _ _ _ Hw)
        as (_ & _ & _ & _ & _ & _ & Hid' & _).
      rewrite lookup_insert_ne by congruence.
      by rewrite lookup_alter_ne. }
    destruct (st_oldDocs st !! doc_id doc) as [oldDoc|] eqn:Hold.
    + specialize (Hre oldDoc eq_refl). unfold update in Hstep.
      destruct (decide (is_Some (doc_revs oldDoc !! doc_rev doc))).
      { simpl in Hstep. by injection Hstep as <-. }
      rewrite Hre in Hstep. simpl in Hstep.
      destruct (head (doc_rev_tree doc)) as [path|]; simpl in Hstep; [|done].
      assert (Hins : ∀ x, <[doc_id doc := x]> (st_oldDocs st) !! k
                          = st_oldDocs st !! k)
        by (intros x; by apply lookup_insert_ne).
      destruct (inConflict _ _ _ _).
      * destruct (if new_edits opts then _ else _) as [[|]|];
          simpl in Hstep; [| |done]; injection Hstep as <-; apply Hins.
      * destruct (if new_edits opts then _ else _) as [[|]|];
          simpl in Hstep; [| |done].
        -- injection Hstep as <-. apply Hins.
        -- eapply Hwritten; [|apply Hins|exact Hstep]. done.
    + destruct (inherited (doc_id doc)); [done|].
      destruct (was_delete opts); simpl in Hstep.
      * destruct (if new_edits opts then _ else _) as [[|]|];
          simpl in Hstep; [| |done]; by injection Hstep as <-.
      * destruct (head (doc_rev_tree doc)) as [path|]; simpl in Hstep;
          [|done].
        destruct (if new_edits opts then _ else _) as [[|]|];
          simpl in Hstep; [| |done].
        -- by injection Hstep as <-.
        -- eapply Hwritten; [|reflexivity|exact Hstep]. done.
Qed.

Lemma processDoc_keeps_to_its_document_witness :
  let '(doc, h) :=
    Fixture.incoming false [Fixture.body0; Fixture.body0]
      (Fixture.raw "a" (Some "2-y") [("_ancestor", "x")]) in
  let st :=
    {| st_heap := h;
       st_oldDocs := {[ "a" := Fixture.stored_doc; "c" := Fixture.other_doc ]};
       st_seq := 5;
       st_results := [Some (ROk "c" "1-p")];
       st_puts := [] |} in
  ∃ st',
    processDoc Fixture.replication 1000 st 1 doc = Some st' ∧
    (∀ j, j ≠ 1%nat → slot (st_results st') j = slot (st_results st) j) ∧
    (∀ k, k ≠ "a" → st_oldDocs st' !! k = st_oldDocs st !! k).
Proof.
  eexists. split; [vm_compute; reflexivity|].
  apply (processDoc_keeps_to_its_document Fixture.replication 1000
           {| st_heap := [Fixture.body0; Fixture.body0; Fixture.body0];
              st_oldDocs :=
                {[ "a" := Fixture.stored_doc; "c" := Fixture.other_doc ]};
              st_seq := 5;
              st_results := [Some (ROk "c" "1-p")];
              st_puts := [] |} _ 1
           (Fixture.incoming false [Fixture.body0; Fixture.body0]
              (Fixture.raw "a" (Some "2-y") [("_ancestor", "x")])).1).
  - intros oldDoc Hold. vm_compute in Hold. injection Hold as <-.
    vm_compute. reflexivity.
  - vm_compute. reflexivity.
Defined.

(** ** A first write *)

(** X11: a batch of one document that parses, has no attachment, has no
    record in the store and whose id is not an inherited name, sent
    without [was_delete], is written when the
    tree the merge returns for it alone has a first root that is not
    ['missing'] (a condition only in new_edits mode) and its revision is
    the winning one: the callback receives [[{ok, id, rev}]], one record is
    put, with the tree of the merge, the next sequence number and the
    deletion flag of the parser as 0 or 1, and the counter has moved by
    one. *)
Theorem bulkDocs_creates_document `{Deps}
    (store : gmap string Doc) (h0 : Heap) (api : MetaData) (opts : Opts)
    (raw : Body) (r : ParseResult) (path : Root) :
  parseDoc raw (new_edits opts) = inr r →
  b_attachments (data r) = None →
  store !! m_id (metadata r) = None →
  inherited (m_id (metadata r)) = false →
  was_delete opts = false →
  head (m_rev_tree (metadata r)) = Some path →
  (new_edits opts = true →
   ∃ root, head (merged_tree (merge [] path (revsLimit_of api))) = Some root ∧
           status (node_opts (ids root)) ≠ "missing") →
  calculateWinningRev (merged_tree (merge [] path (revsLimit_of api))) =
    m_rev (metadata r) →
  ∃ st d h,
    run_final (bulkDocs store h0 api opts [raw]) = Some st ∧
    st_results st = [Some (ROk (m_id (metadata r)) (m_rev (metadata r)))] ∧
    st_puts st = [(0%nat, d, h)] ∧
    st_seq st = md_seq api + 1 ∧
    doc_id d = m_id (metadata r) ∧
    doc_rev d = m_rev (metadata r) ∧
    doc_rev_tree d = merged_tree (merge [] path (revsLimit_of api)) ∧
    doc_seq d = Some (md_seq api + 1) ∧
    doc_deleted d =
      JNum (if truthy (m_deleted (metadata r)) then 1 else 0) ∧
    (doc_data d ≫= fun l => h !! l) = Some (data r).
Proof.
  intros Hparse Hatt Hstore Hin Hdel Hpath Hroot Hwin.
  unfold bulkDocs. simpl. rewrite Hparse.
  pose proof (convertDocFormat_spec h0 r) as Hdoc.
  destruct (convertDocFormat h0 r) as [doc h1].
  destruct Hdoc as (_ & Hid & Hrev & Htree & e & He & Hedel & Hbody).
  cbn -[processDocs]. unfold preProcessDoc.
  rewrite He. simpl. rewrite Hbody. simpl. rewrite Hatt.
  cbn -[processDoc]. unfold processDoc, resolve, fetchExistingDocs.
  cbn [foldl st_oldDocs]. rewrite Hid, Hstore, lookup_empty, Hin, Hdel.
  rewrite Htree, Hpath. cbn [mbind option_bind].
  assert (Hmiss : (if new_edits opts
                   then rootIsMissing
                          (set_merged doc (merge [] path (revsLimit_of api)))
                   else Some false) = Some false).
  { destruct (new_edits opts); [|done].
    destruct Hroot as (root & Hhead & Hst); [done|].
    unfold rootIsMissing. simpl.
    destruct (merged_tree _) as [|root' rest]; [done|].
    injection Hhead as ->. by rewrite (eqb_false_of_ne _ _ Hst). }
  rewrite Hmiss. cbn [mbind option_bind].
  unfold write. cbn [set_merged doc_rev_tree doc_revs doc_stemmedRevs
                       doc_attachments doc_id].
  rewrite Hwin, <- Hrev, He. cbn [mbind option_bind st_heap].
  rewrite Hbody. cbn [mbind option_bind]. rewrite Hatt.
  eexists _, _, _. split; [reflexivity|]. cbn.
  split; [by rewrite Hid|]. split; [reflexivity|]. cbn.
  rewrite Hedel, Hbody. by repeat split.
Qed.

Lemma bulkDocs_creates_document_witness :
  ∃ st d h,
    run_final (bulkDocs ∅ [] Fixture.api7 Fixture.edits
                 [Fixture.raw "a" None [("_uuid", "x"); ("title", "t")]])
      = Some st ∧
    st_results st = [Some (ROk "a" "1-x")] ∧
    st_puts st = [(0%nat, d, h)] ∧
    st_seq st = 7 + 1 ∧
    doc_id d = "a" ∧
    doc_rev d = "1-x" ∧
    doc_rev_tree d =
      merged_tree
        (merge []
           {| pos := 1;
              ids := mkNode "x" (Fixture.opt "available" JUndefined) [] |}
           2) ∧
    doc_seq d = Some (7 + 1) ∧
    doc_deleted d = JNum 0 ∧
    (doc_data d ≫= fun l => h !! l) =
      Some {| b_id := None; b_rev := None; b_attachments := None;
              b_fields := [("title", "t")] |}.
Proof.
  apply (bulkDocs_creates_document ∅ [] Fixture.api7 Fixture.edits
           (Fixture.raw "a" None [("_uuid", "x"); ("title", "t")])
           (Fixture.parsed true
              (Fixture.raw "a" None [("_uuid", "x"); ("title", "t")]))
           {| pos := 1;
              ids := mkNode "x" (Fixture.opt "available" JUndefined) [] |}).
  - vm_compute. reflexivity.
  - reflexivity.
  - reflexivity.
  - vm_compute. reflexivity.
  - reflexivity.
  - vm_compute. reflexivity.
  - intros _. eexists. split; [vm_compute; reflexivity|].
    vm_compute. discriminate.
  - vm_compute. reflexivity.
Defined.

(** The same batch under an id every object inherits: [doc.id in oldDocs]
    holds with no record fetched, [update] throws on the inherited member
    and the transaction completes with nothing put and an empty
    [results]. *)
Example bulkDocs_inherited_id_is_not_created :
  bulkDocs ∅ [] Fixture.api7 Fixture.edits
    [Fixture.raw "toString" None [("_uuid", "x"); ("title", "t")]] =
    {| run_events :=
         [EvTransaction; EvGet "toString"; EvNotify "db";
          EvCallback None (Some [])];
       run_final :=
         Some {| st_heap :=
                   [{| b_id := None; b_rev := None; b_attachments := None;
                       b_fields := [("title", "t")] |}];
                 st_oldDocs := ∅; st_seq := 7;
                 st_results := []; st_puts := [] |} |}.
Proof. vm_compute. reflexivity. Qed.

(** ** Success slots and records written *)

Section Successes.
Context `{Deps}.
Variable opts : Opts.
Variable revsLimit : Z.

(** The three ways an iteration completes. *)
Lemma processDoc_cases (st st' : State) (i : nat) (doc : Doc) :
  processDoc opts revsLimit st i doc = Some st' →
  st' = st ∨
  (∃ e, st_results st' = js_assign (st_results st) i (RError e) ∧
        st_puts st' = st_puts st) ∨
  (∃ d h, st_results st' =
            js_assign (st_results st) i (ROk (doc_id d) (doc_rev d)) ∧
          st_puts st' = (st_puts st ++ [(i, d, h)])%list).
Proof.
  unfold processDoc.
  destruct (resolve opts revsLimit st doc) as [[[[h doc'] oldDocs] newDoc]|];
    simpl; [|done].
  destruct newDoc as [|e|d].
  - intros [= <-]. by left.
  - destruct (if new_edits opts then rootIsMissing doc' else Some false)
      as [[|]|]; simpl; [| |done]; intros [= <-]; right; left;
      by eexists.
  - destruct (if new_edits opts then rootIsMissing doc' else Some false)
      as [[|]|]; simpl; [| |done].
    + intros [= <-]. right. left. by eexists.
    + destruct (write h (st_seq st) d) as [[[h' seq'] d']|]; [|done].
      intros [= <-]. right. right. by exists d', h'.
Qed.

Lemma processDocs_successes_written (docs : list Doc) (i : nat) (st : State) :
  (length (st_results st) ≤ i)%nat →
  (∀ j id rev, slot (st_results st) j = Some (ROk id rev) →
     ∃ d h, (j, d, h) ∈ st_puts st ∧ doc_id d = id ∧ doc_rev d = rev) →
  ∀ j id rev,
    slot (st_results (processDocs opts revsLimit i docs st)) j
      = Some (ROk id rev) →
    ∃ d h, (j, d, h) ∈ st_puts (processDocs opts revsLimit i docs st) ∧
           doc_id d = id ∧ doc_rev d = rev.
Proof.
  revert i st. induction docs as [|doc docs IH]; intros i st Hlen Hinv;
    simpl; [done|].
  destruct (processDoc opts revsLimit st i doc) as [st'|] eqn:Hstep; [|done].
  pose proof (processDoc_results_length _ _ _ _ _ _ Hstep Hlen) as Hlen'.
  apply IH; [done|].
  assert (Hfresh : slot (st_results st) i = None).
  { unfold slot. rewrite lookup_ge_None_2; [done|lia]. }
  intros j id rev Hj.
  destruct (processDoc_cases _ _ _ _ Hstep)
    as [->|[(e & Hr & Hp)|(d & h & Hr & Hp)]].
  - by apply Hinv.
  - rewrite Hr in Hj. rewrite Hp.
    destruct (decide (i = j)) as [<-|Hne].
    + by rewrite slot_js_assign_eq in Hj.
    + rewrite slot_js_assign_ne in Hj by done. by apply Hinv.
  - rewrite Hr in Hj. rewrite Hp.
    destruct (decide (i = j)) as [<-|Hne].
    + rewrite slot_js_assign_eq in Hj. injection Hj as <- <-.
      exists d, h. split; [|done].
      apply elem_of_app. right. by left.
    + rewrite slot_js_assign_ne in Hj by done.
      destruct (Hinv j id rev Hj) as (d0 & h0 & Hin & Hd).
      exists d0, h0. split; [|done]. apply elem_of_app. by left.
Qed.

End Successes.

(** X12: a call never reports a success it did not write: for every slot
    of the final [results] that holds [{ok, id, rev}], the call handed to
    [put], for the input of that index, a record with that id and that
    revision. *)
Theorem success_slots_are_written `{Deps}
    (store : gmap string Doc) (h0 : Heap) (api : MetaData) (opts : Opts)
    (req : list Body) (st : State) (j : nat) (id rev : string) :
  run_final (bulkDocs store h0 api opts req) = Some st →
  slot (st_results st) j = Some (ROk id rev) →
  ∃ d h, (j, d, h) ∈ st_puts st ∧ doc_id d = id ∧ doc_rev d = rev.
Proof.
  intros Hrun.
  destruct (bulkDocs_final _ _ _ _ _ _ Hrun) as (docs & h & oldDocs & ->).
  apply processDocs_successes_written; [simpl; lia|].
  intros j' id' rev' Hj. unfold slot in Hj.
  by destruct j'.
Qed.

Lemma success_slots_are_written_witness :
  ∃ st,
    run_final (bulkDocs ∅ [] Fixture.api7 Fixture.replication Fixture.batch4)
      = Some st ∧
    ∃ d h, (3%nat, d, h) ∈ st_puts st ∧ doc_id d = "a" ∧ doc_rev d = "3-z".
Proof.
  eexists. split; [vm_compute; reflexivity|].
  eapply (success_slots_are_written ∅ [] Fixture.api7 Fixture.replication
            Fixture.batch4).
  - vm_compute. reflexivity.
  - vm_compute. reflexivity.
Defined.

(** ** Attachments of the records written *)

Section Stubs.
Context `{Deps}.
Variable opts : Opts.
Variable revsLimit : Z.






End Stubs.




(** ** A removal of an unknown document *)

(** X14: a batch of one document that parses, has no attachment, has no
    record in the store and whose id is not an inherited name, sent with
    [was_delete], gets [MISSING_DOC]
    (reason ["deleted"]) in its slot whenever the check of line 95 does not
    fire, that is in replication mode, or in new_edits mode when the first
    root of the parsed tree is not ['missing']; nothing is written and the
    counter stays. *)
Theorem bulkDocs_removal_of_unknown `{Deps}
    (store : gmap string Doc) (h0 : Heap) (api : MetaData) (opts : Opts)
    (raw : Body) (r : ParseResult) :
  parseDoc raw (new_edits opts) = inr r →
  b_attachments (data r) = None →
  store !! m_id (metadata r) = None →
  inherited (m_id (metadata r)) = false →
  was_delete opts = true →
  (new_edits opts = true →
   ∃ root, head (m_rev_tree (metadata r)) = Some root ∧
           status (node_opts (ids root)) ≠ "missing") →
  ∃ st,
    run_final (bulkDocs store h0 api opts [raw]) = Some st ∧
    st_results st =
      [Some (RError (createError MISSING_DOC (Some "deleted")))] ∧
    st_puts st = [] ∧
    st_seq st = md_seq api.
Proof.
  intros Hparse Hatt Hstore Hin Hdel Hroot.
  unfold bulkDocs. simpl. rewrite Hparse.
  pose proof (convertDocFormat_spec h0 r) as Hdoc.
  destruct (convertDocFormat h0 r) as [doc h1].
  destruct Hdoc as (_ & Hid & Hrev & Htree & e & He & Hedel & Hbody).
  cbn -[processDocs]. unfold preProcessDoc.
  rewrite He. simpl. rewrite Hbody. simpl. rewrite Hatt.
  cbn -[processDoc]. unfold fetchExistingDocs. cbn [foldl].
  rewrite Hid, Hstore.
  rewrite (processDoc_missing_doc opts (revsLimit_of api) _ 0 doc).
  - eexists. split; [reflexivity|]. by repeat split.
  - done.
  - simpl. by rewrite Hid, lookup_empty.
  - by rewrite Hid.
  - destruct (new_edits opts); [|done].
    destruct Hroot as (root & Hhead & Hst); [done|].
    unfold rootIsMissing. rewrite Htree.
    destruct (m_rev_tree (metadata r)) as [|root' rest]; [done|].
    injection Hhead as ->. by rewrite (eqb_false_of_ne _ _ Hst).
Qed.

Lemma bulkDocs_removal_of_unknown_witness :
  ∃ st,
    run_final (bulkDocs ∅ [] Fixture.api7 Fixture.removal
                 [Fixture.raw "a" None [("_deleted", "true")]]) = Some st ∧
    st_results st =
      [Some (RError (createError MISSING_DOC (Some "deleted")))] ∧
    st_puts st = [] ∧
    st_seq st = 7.
Proof.
  apply (bulkDocs_removal_of_unknown ∅ [] Fixture.api7 Fixture.removal
           (Fixture.raw "a" None [("_deleted", "true")])
           (Fixture.parsed true (Fixture.raw "a" None [("_deleted", "true")]))).
  - vm_compute. reflexivity.
  - reflexivity.
  - reflexivity.
  - vm_compute. reflexivity.
  - reflexivity.
  - intros _. eexists. split; [vm_compute; reflexivity|].
    vm_compute. discriminate.
Defined.

(** The same removal under an id every object inherits: the removal
    branch is not taken, [update] throws on the inherited member, and the
    callback receives an empty [results], without the [MISSING_DOC]. *)
Example bulkDocs_removal_of_inherited_id :
  delivered (bulkDocs ∅ [] Fixture.api7 Fixture.removal
               [Fixture.raw "constructor" None [("_deleted", "true")]]) =
    Some [].
Proof. vm_compute. reflexivity. Qed.
